(** * PlayerPrivate: the playback loop of the Qt player

    A shallow embedding of [src/Qt/PlayerPrivate.cpp]: the frame
    acquisition [getFrame], one iteration of the loop of [run], the loop
    itself, and [startPlayback] / [stopPlayback].

    Conventions.
    - [int64_t] and [int] values are integers of [Z]; every arithmetic
      result is reduced to the signed 64-bit range by [Int64.wrap].
    - [double] values are IEEE-754 binary64 numbers, taken from the
      standard library's [SpecFloat] ([prec = 53], [emax = 1024]); the
      operations round to nearest, ties to even, as the hardware does.
    - A [std::shared_ptr<Frame>] is an [option Frame]; a frame carries the
      identity of the object it points to, so that equality of two
      pointers is equality of the options.
    - Calls to the collaborators (reader, cache thread, audio thread,
      video thread, logger, [sleep_for]) are recorded as a list of
      [event]s; the values they answer with are the fields of [Env]. *)

From Stdlib Require Import ZArith List Bool Lia QArith.
From Stdlib Require Import Floats.SpecFloat.
Import ListNotations.

Local Open Scope Z_scope.

(* ================================================================= *)
(** ** Signed 64-bit integers *)

Module Int64.

Definition min_signed : Z := - 2 ^ 63.
Definition max_signed : Z := 2 ^ 63 - 1.
Definition modulus : Z := 2 ^ 64.

(** Two's complement reduction to the range of [int64_t]. *)
Definition wrap (z : Z) : Z := (z + 2 ^ 63) mod modulus - 2 ^ 63.

Definition in_range (z : Z) : Prop := min_signed <= z <= max_signed.

Definition in_rangeb (z : Z) : bool :=
  (min_signed <=? z) && (z <=? max_signed).

Definition add (a b : Z) : Z := wrap (a + b).
Definition sub (a b : Z) : Z := wrap (a - b).

End Int64.

(* ================================================================= *)
(** ** Binary64 floating point *)

Module Double.

Definition prec : Z := 53.
Definition emax : Z := 1024.

Definition double : Type := spec_float.

Definition add : double -> double -> double := SFadd prec emax.
Definition sub : double -> double -> double := SFsub prec emax.
Definition mul : double -> double -> double := SFmul prec emax.
Definition div : double -> double -> double := SFdiv prec emax.
Definition fabs : double -> double := SFabs.

(** Conversion of an integer to [double] (round to nearest even). *)
Definition of_Z (z : Z) : double := binary_normalize prec emax z 0 false.

(** The rational number a [double] denotes (0 for infinities and NaN,
    which no statement below evaluates). *)
Definition value (x : double) : Q :=
  match x with
  | S754_finite s m e =>
      if 0 <=? e
      then inject_Z (cond_Zopp s (Zpos m * 2 ^ e))
      else Qmake (cond_Zopp s (Zpos m)) (Z.to_pos (2 ^ (- e)))
  | _ => 0%Q
  end.

Definition is_finite (x : double) : bool :=
  match x with
  | S754_zero _ | S754_finite _ _ _ => true
  | _ => false
  end.

Definition sign (x : double) : bool :=
  match x with
  | S754_zero s | S754_infinity s | S754_finite s _ _ => s
  | S754_nan => false
  end.

(** Truncation toward zero of a finite value. *)
Definition trunc (x : double) : Z :=
  match x with
  | S754_finite s m e => cond_Zopp s (Z.shiftl (Zpos m) e)
  | _ => 0
  end.

(** Conversion [double -> int64_t]: truncation toward zero.  C++
    leaves the conversion of NaN, of an infinity and of a value outside
    the range of [int64_t] undefined; the model answers as the x86-64
    conversion instruction does, with the smallest [int64_t]. *)
Definition to_int64 (x : double) : Z :=
  if is_finite x && Int64.in_rangeb (trunc x)
  then trunc x
  else Int64.min_signed.

End Double.

Import Double.

(* ================================================================= *)
(** ** Data model *)

(** A decoded frame: the identity of the object and its number. *)
Record Frame : Type := mkFrame {
  frame_id : nat;
  number   : Z
}.

Definition shared_ptr : Type := option Frame.

(** [openshot::Fraction]: numerator and denominator. *)
Record Fraction : Type := mkFraction {
  num : Z;
  den : Z
}.

(** Modelled from the spec: [Fraction::ToDouble] is declared outside the
    sources at hand; the frame rate is the rational [num / den], here the
    quotient of the two integers converted to [double]. *)
Definition ToDouble (f : Fraction) : double :=
  Double.div (of_Z (num f)) (of_Z (den f)).

(** [reader->info]: the fields the player reads. *)
Record ReaderInfo : Type := mkInfo {
  has_audio    : bool;
  has_video    : bool;
  fps          : Fraction;
  video_length : Z
}.

(** The members of [PlayerPrivate] the loop reads and writes.  The
    positions are [int64_t]; [speed] and [max_sleep_ms] are [int], and
    are converted to [int64_t] where they meet a position or a count of
    milliseconds. *)
Record PlayerPrivate : Type := mkPlayer {
  video_position      : Z;
  audio_position      : Z;
  last_video_position : Z;
  speed               : Z;
  frame               : shared_ptr;
  max_sleep_ms        : Z
}.

(** The state the constructor builds. *)
Definition initial : PlayerPrivate :=
  {| video_position := 1; audio_position := 0; last_video_position := 1;
     speed := 1; frame := None; max_sleep_ms := 3000 |}.

Definition set_video_position (p : PlayerPrivate) (v : Z) : PlayerPrivate :=
  {| video_position := v; audio_position := audio_position p;
     last_video_position := last_video_position p; speed := speed p;
     frame := frame p; max_sleep_ms := max_sleep_ms p |}.

Definition set_audio_position (p : PlayerPrivate) (v : Z) : PlayerPrivate :=
  {| video_position := video_position p; audio_position := v;
     last_video_position := last_video_position p; speed := speed p;
     frame := frame p; max_sleep_ms := max_sleep_ms p |}.

Definition set_last_video_position (p : PlayerPrivate) (v : Z) : PlayerPrivate :=
  {| video_position := video_position p; audio_position := audio_position p;
     last_video_position := v; speed := speed p;
     frame := frame p; max_sleep_ms := max_sleep_ms p |}.

Definition set_speed (p : PlayerPrivate) (v : Z) : PlayerPrivate :=
  {| video_position := video_position p; audio_position := audio_position p;
     last_video_position := last_video_position p; speed := v;
     frame := frame p; max_sleep_ms := max_sleep_ms p |}.

Definition set_frame (p : PlayerPrivate) (f : shared_ptr) : PlayerPrivate :=
  {| video_position := video_position p; audio_position := audio_position p;
     last_video_position := last_video_position p; speed := speed p;
     frame := f; max_sleep_ms := max_sleep_ms p |}.

(** Exceptions a reader can raise: the two kinds the player names, and
    any other one. *)
Inductive exception : Type :=
| ReaderClosed
| OutOfBoundsFrame
| OtherException.

(** What [reader->GetFrame] answers. *)
Inductive fetch : Type :=
| Fetched (f : shared_ptr)
| Throws (e : exception).

(** Result of a call that may let an exception escape. *)
Inductive outcome (A : Type) : Type :=
| Returned (a : A)
| Propagated (e : exception).
Arguments Returned {A} a.
Arguments Propagated {A} e.

Inductive thread_id : Type := AudioPlayback | VideoCache | VideoPlayback | Player.

(** Calls to the collaborators, in program order. *)
Inductive event : Type :=
| EvSetCurrentFramePosition (pos : Z)     (* videoCache->setCurrentFramePosition *)
| EvReaderGetFrame (pos : Z)              (* reader->GetFrame *)
| EvRender (f : shared_ptr)               (* videoPlayback->frame = frame; signal *)
| EvAudioSeek (pos : Z)                   (* audioPlayback->Seek *)
| EvAudioGetPosition                      (* audioPlayback->getCurrentFramePosition *)
| EvDebug (diff vpos apos spd : Z) (render_time : double) (sleep_ms : Z)
| EvSleepFor (d : double)                 (* sleep_for(frame_duration) *)
| EvSleepMs (ms : Z)                      (* sleep_for(sleep_time) *)
| EvStartThread (t : thread_id) (priority : Z)
| EvStopThread (t : thread_id) (timeout_ms : Z).

(** The answers of the collaborators during one iteration. *)
Record Env : Type := mkEnv {
  reader_GetFrame         : Z -> fetch;
  getCurrentFramePosition : Z;
  render_time             : double
}.

(* ================================================================= *)
(** ** [PlayerPrivate::getFrame] *)

Section WithReader.

Variable info : ReaderInfo.

(** Lines 146-147: the step of [video_position] by [speed]. *)
Definition advance (p : PlayerPrivate) : PlayerPrivate :=
  let next := Int64.add (video_position p) (speed p) in
  if (1 <=? next) && (next <=? video_length info)
  then set_video_position p next
  else p.

(** Line 149: the test for the cached frame. *)
Definition cached (p : PlayerPrivate) : bool :=
  match frame p with
  | Some f => (number f =? video_position p)
              && (video_position p =? last_video_position p)
  | None => false
  end.

Definition getFrame (GetFrame : Z -> fetch) (p : PlayerPrivate)
  : outcome shared_ptr * PlayerPrivate * list event :=
  let p1 := advance p in
  if cached p1 then (Returned (frame p1), p1, [])
  else
    let pos := video_position p1 in
    let evs := [EvSetCurrentFramePosition pos; EvReaderGetFrame pos] in
    match GetFrame pos with
    | Fetched f => (Returned f, p1, evs)
    | Throws ReaderClosed => (Returned None, p1, evs)
    | Throws OutOfBoundsFrame => (Returned None, p1, evs)
    | Throws e => (Propagated e, p1, evs)
    end.

End WithReader.

(* ================================================================= *)
(** ** [PlayerPrivate::run]: one iteration of the loop *)

(** How one pass through the body of the [while] ends. *)
Inductive iteration : Type :=
| Continue (p : PlayerPrivate) (evs : list event)
    (* the body ran to its end, or reached [continue] *)
| Uncaught (e : exception) (p : PlayerPrivate) (evs : list event).
    (* an exception left [getFrame], and so leaves [run] *)

(** How the loop ends on a finite schedule. *)
Inductive run_end : Type :=
| Exited (p : PlayerPrivate)              (* [threadShouldExit()] held *)
| Running (p : PlayerPrivate)             (* the schedule is used up *)
| Crashed (e : exception) (p : PlayerPrivate).

Section Loop.

Variable info : ReaderInfo.

(** Line 63: on-screen time of one frame, in fractional milliseconds. *)
Definition frame_duration : double :=
  Double.div (of_Z 1000) (ToDouble (fps info)).

Definition both_streams : bool := has_audio info && has_video info.

(** Lines 73-74: the test of the pausing code. *)
Definition paused_or_ended (p : PlayerPrivate) : bool :=
  ((speed p =? 0) && (video_position p =? last_video_position p))
  || (video_length info <? video_position p).

(** Lines 76-78: the pausing code itself. *)
Definition pause (p : PlayerPrivate) : PlayerPrivate * list event :=
  (set_speed p 0, [EvSleepFor frame_duration]).

(** Lines 89-98: the audio position is sampled, the difference taken. *)
Definition sample_audio (env : Env) (p : PlayerPrivate)
  : PlayerPrivate * Z * list event :=
  if both_streams then
    let seek := if speed p =? 1 then []
                else [EvAudioSeek (video_position p)] in
    let p' := set_audio_position p (getCurrentFramePosition env) in
    (p', Int64.sub (video_position p') (audio_position p'),
     seek ++ [EvAudioGetPosition])
  else (p, 0, []).

(** Line 107: [duration_cast<ms>(frame_duration - render_time)]. *)
Definition base_sleep (env : Env) : Z :=
  to_int64 (Double.sub frame_duration (render_time env)).

(** Line 121: [duration_cast<ms>(video_frame_diff * frame_duration)]. *)
Definition drift_delay (video_frame_diff : Z) : Z :=
  to_int64 (Double.mul (of_Z video_frame_diff) frame_duration).

(** Line 126: [video_position += std::fabs(video_frame_diff) / 2];
    the right-hand side is a [double], so the sum is taken in [double]
    and converted back. *)
Definition skip_ahead (vpos video_frame_diff : Z) : Z :=
  to_int64 (Double.add (of_Z vpos)
              (Double.div (fabs (of_Z video_frame_diff)) (of_Z 2))).

(** Lines 113-128: the drift adjustment; answers the player and the
    adjusted [sleep_time]. *)
Definition adjust_drift (video_frame_diff sleep_time : Z) (p : PlayerPrivate)
  : PlayerPrivate * Z :=
  if (0 <? video_frame_diff) && has_audio info && has_video info then
    (p, Int64.add sleep_time (drift_delay video_frame_diff))
  else if (video_frame_diff <? -10) && has_audio info && has_video info then
    (set_video_position p (skip_ahead (video_position p) video_frame_diff), 0)
  else (p, sleep_time).

(** Lines 134-136: the sleep at the end of the body. *)
Definition final_sleep (sleep_time : Z) (p : PlayerPrivate) : list event :=
  if (0 <? sleep_time) && (sleep_time <? max_sleep_ms p)
  then [EvSleepMs sleep_time]
  else [].

(** Lines 82-128: the frame is handed to the video thread, the audio
    position sampled, and [sleep_time] computed and adjusted; answers the
    player, the adjusted [sleep_time] and the calls made. *)
Definition render_and_adjust (env : Env) (p : PlayerPrivate)
  : PlayerPrivate * Z * list event :=
  let p1 := set_last_video_position p (video_position p) in
  let '(p2, video_frame_diff, evs_audio) := sample_audio env p1 in
  let sleep_time := base_sleep env in
  let dbg := EvDebug video_frame_diff (video_position p2) (audio_position p2)
               (speed p2) (render_time env) sleep_time in
  let '(p3, sleep_time') := adjust_drift video_frame_diff sleep_time p2 in
  (p3, sleep_time', [EvRender (frame p)] ++ evs_audio ++ [dbg]).

(** Lines 82-136: the body after the pausing code. *)
Definition render_and_sleep (env : Env) (p : PlayerPrivate)
  : PlayerPrivate * list event :=
  let '(p3, sleep_time, evs) := render_and_adjust env p in
  (p3, evs ++ final_sleep sleep_time p3).

(** The part of the body after [frame = getFrame()]. *)
Definition after_getFrame (env : Env) (p : PlayerPrivate)
  : PlayerPrivate * list event :=
  if paused_or_ended p then pause p else render_and_sleep env p.

(** Lines 66-137: the body of the loop. *)
Definition run_iteration (env : Env) (p : PlayerPrivate) : iteration :=
  match getFrame info (reader_GetFrame env) p with
  | (Propagated e, p1, evs) => Uncaught e p1 evs
  | (Returned f, p1, evs) =>
      let '(p2, evs') := after_getFrame env (set_frame p1 f) in
      Continue p2 (evs ++ evs')
  end.

(** Lines 65-138: the loop, over a schedule that gives for each pass
    the answer of [threadShouldExit()] and of the collaborators. *)
Fixpoint run_loop (schedule : list (bool * Env)) (p : PlayerPrivate)
  : run_end * list event :=
  match schedule with
  | [] => (Running p, [])
  | (should_exit, env) :: rest =>
      if should_exit then (Exited p, [])
      else match run_iteration env p with
           | Continue p' evs =>
               let '(r, evs') := run_loop rest p' in (r, evs ++ evs')
           | Uncaught e p' evs => (Crashed e p', evs)
           end
  end.

End Loop.

(** Lines 42-139: [run]; the reader may be absent. *)
Definition run (reader : option ReaderInfo) (schedule : list (bool * Env))
    (p : PlayerPrivate) : run_end * list event :=
  match reader with
  | None => (Exited p, [])
  | Some info =>
      let start_audio :=
        if has_audio info then [EvStartThread AudioPlayback 8] else [] in
      let start_video :=
        if has_video info
        then [EvStartThread VideoCache 2; EvStartThread VideoPlayback 4]
        else [] in
      let '(r, evs) := run_loop info schedule p in
      (r, start_audio ++ start_video ++ evs)
  end.

(* ================================================================= *)
(** ** [startPlayback] and [stopPlayback] *)

(** The answers of [isThreadRunning()] for the four threads. *)
Record Threads : Type := mkThreads {
  audio_running  : bool;
  cache_running  : bool;
  video_running  : bool;
  player_running : bool
}.

(** Lines 181-187. *)
Definition stopPlayback (info : ReaderInfo) (t : Threads) (p : PlayerPrivate)
  : list event :=
  (if audio_running t && has_audio info
   then [EvStopThread AudioPlayback (max_sleep_ms p)] else [])
  ++ (if cache_running t && has_video info
      then [EvStopThread VideoCache (max_sleep_ms p)] else [])
  ++ (if video_running t && has_video info
      then [EvStopThread VideoPlayback (max_sleep_ms p)] else [])
  ++ (if player_running t
      then [EvStopThread Player (max_sleep_ms p)] else []).

(** Lines 171-178. *)
Definition startPlayback (info : ReaderInfo) (t : Threads) (p : PlayerPrivate)
  : bool * list event :=
  if video_position p <? 0 then (false, [])
  else (true, stopPlayback info t p ++ [EvStartThread Player 1]).

(* ================================================================= *)
(** ** Derived notions used in the statements *)

(** [getFrame] called once per entry of [readers], each entry being what
    the reader would answer during that call; the player is threaded
    through, the results and the calls are collected. *)
Fixpoint getFrame_repeat (info : ReaderInfo) (readers : list (Z -> fetch))
    (p : PlayerPrivate)
  : list (outcome shared_ptr) * PlayerPrivate * list event :=
  match readers with
  | [] => ([], p, [])
  | GetFrame :: rest =>
      let '(r, p1, evs) := getFrame info GetFrame p in
      let '(rs, p2, evs') := getFrame_repeat info rest p1 in
      (r :: rs, p2, evs ++ evs')
  end.

(** The player at the end of one pass through the body. *)
Definition player_after (it : iteration) : PlayerPrivate :=
  match it with
  | Continue p _ => p
  | Uncaught _ p _ => p
  end.

(** The calls made during one pass through the body. *)
Definition events_of (it : iteration) : list event :=
  match it with
  | Continue _ evs => evs
  | Uncaught _ _ evs => evs
  end.

(** The two kinds of exception [getFrame] has a handler for. *)
Definition handled (e : exception) : bool :=
  match e with
  | ReaderClosed | OutOfBoundsFrame => true
  | OtherException => false
  end.

Definition is_fetch (ev : event) : bool :=
  match ev with EvReaderGetFrame _ => true | _ => false end.

(** Calls that belong to rendering, audio sampling and drift correction. *)
Definition is_render_or_drift (ev : event) : bool :=
  match ev with
  | EvRender _ | EvAudioSeek _ | EvAudioGetPosition
  | EvDebug _ _ _ _ _ _ | EvSleepMs _ => true
  | _ => false
  end.

(** A sleep shorter than [limit] milliseconds; calls that are no sleep
    satisfy it. *)
Definition sleeps_less_than (limit : Z) (ev : event) : Prop :=
  match ev with
  | EvSleepMs ms => ms < limit
  | EvSleepFor d => is_finite d = true /\ (value d < inject_Z limit)%Q
  | _ => True
  end.

(** [z] is [q] with its fractional part dropped (rounding toward zero). *)
Definition truncation_of (q : Q) (z : Z) : Prop :=
  ((0 <= q)%Q -> (inject_Z z <= q)%Q /\ (q < inject_Z (z + 1))%Q)
  /\ ((q <= 0)%Q -> (inject_Z (z - 1) < q)%Q /\ (q <= inject_Z z)%Q).

(** A value that is NaN or carries the sign bit 0. *)
Definition nonneg_or_nan (x : double) : Prop :=
  match x with
  | S754_nan => True
  | _ => sign x = false
  end.

(** The [sleep_time] with which a pass that renders reaches line 134;
    [p] is the player after [frame = getFrame()]. *)
Definition resulting_sleep (info : ReaderInfo) (env : Env) (p : PlayerPrivate)
  : Z :=
  snd (fst (render_and_adjust info env p)).

(** The [video_frame_diff] of a pass with both streams. *)
Definition frame_diff (env : Env) (p : PlayerPrivate) : Z :=
  Int64.sub (video_position p) (getCurrentFramePosition env).

Definition is_sleep (ev : event) : bool :=
  match ev with
  | EvSleepFor _ | EvSleepMs _ => true
  | _ => false
  end.

(** *** Readings of the specification that the code does not meet *)

(** "[video_position] changes only by adding [speed], and only within
    [[1, video_length]]", over one pass through the body. *)
Definition position_moves_only_by_speed (info : ReaderInfo) (env : Env)
    (p : PlayerPrivate) : Prop :=
  let p' := player_after (run_iteration info env p) in
  video_position p' = video_position p
  \/ (video_position p' = video_position p + speed p
      /\ 1 <= video_position p + speed p <= video_length info).

(** "The resulting [sleep_time] equals the unadjusted
    [frame_duration - render_time] plus
    [video_frame_diff * frame_duration], and is strictly greater than the
    unadjusted one". *)
Definition drift_amplification (info : ReaderInfo) (env : Env)
    (p : PlayerPrivate) : Prop :=
  let unadjusted :=
    value (Double.sub (frame_duration info) (render_time env)) in
  let extra :=
    (inject_Z (frame_diff env p) * value (frame_duration info))%Q in
  (inject_Z (resulting_sleep info env p) == unadjusted + extra)%Q
  /\ (unadjusted < inject_Z (resulting_sleep info env p))%Q.

(** "The loop never performs a single sleep of [max_sleep_ms]
    milliseconds or more", over one pass through the body. *)
Definition every_sleep_below_max (info : ReaderInfo) (env : Env)
    (p : PlayerPrivate) : Prop :=
  Forall (sleeps_less_than (max_sleep_ms p))
         (events_of (run_iteration info env p)).

(** *** Binary64: exactly representable values *)

(** Number of binary digits of a mantissa. *)
Definition digits (m : positive) : Z := Zpos (digits2_pos m).

(** A shifted mantissa none of whose discarded digits was 1. *)
Definition shr_exact (m : Z) : shr_record :=
  {| shr_m := m; shr_r := false; shr_s := false |}.

(** The binary64 number of sign [s] and magnitude [n * 2 ^ E], for a
    mantissa [n] of at most 53 digits, in normal form. *)
Definition normal (s : bool) (n : positive) (E : Z) : double :=
  S754_finite s (Z.to_pos (Zpos n * 2 ^ (53 - digits n))) (E - (53 - digits n)).

(* ================================================================= *)
(** ** Concrete streams, readers and players *)

Definition info_24fps : ReaderInfo :=
  {| has_audio := true; has_video := true;
     fps := {| num := 24; den := 1 |}; video_length := 100 |}.

Definition frames_by_number (pos : Z) : fetch :=
  Fetched (Some {| frame_id := Z.to_nat pos; number := pos |}).

(** A player paused on frame 7, which it holds. *)
Definition paused_on_7 : PlayerPrivate :=
  {| video_position := 7; audio_position := 7; last_video_position := 7;
     speed := 0;
     frame := Some {| frame_id := 7; number := 7 |};
     max_sleep_ms := 3000 |}.

(** A reader that has been closed. *)
Definition closed_reader (pos : Z) : fetch := Throws ReaderClosed.

(** A reader that fails in a way the player has no handler for. *)
Definition broken_reader (pos : Z) : fetch := Throws OtherException.

Definition zero_ms : double := S754_zero false.

Definition env_closed : Env :=
  {| reader_GetFrame := closed_reader; getCurrentFramePosition := 2;
     render_time := zero_ms |}.

Definition env_broken : Env :=
  {| reader_GetFrame := broken_reader; getCurrentFramePosition := 2;
     render_time := zero_ms |}.

Definition env_playing (audio : Z) : Env :=
  {| reader_GetFrame := frames_by_number; getCurrentFramePosition := audio;
     render_time := zero_ms |}.

Definition all_running : Threads :=
  {| audio_running := true; cache_running := true; video_running := true;
     player_running := true |}.

(** A stream of one frame every four seconds. *)
Definition info_quarter_fps : ReaderInfo :=
  {| has_audio := true; has_video := true;
     fps := {| num := 1; den := 4 |}; video_length := 100 |}.

(** A player at frame 5, playing forward. *)
Definition playing_at_5 : PlayerPrivate :=
  {| video_position := 5; audio_position := 0; last_video_position := 4;
     speed := 1; frame := None; max_sleep_ms := 3000 |}.

(** A stream of 2000 frames per second: half a millisecond per frame. *)
Definition info_2000fps : ReaderInfo :=
  {| has_audio := true; has_video := true;
     fps := {| num := 2000; den := 1 |}; video_length := 100 |}.

(** A quarter of a millisecond. *)
Definition quarter_ms : double := S754_finite false 4503599627370496 (-54).

(** The audio thread is at frame 7 and rendering took 0.25 ms. *)
Definition env_audio_at_7 : Env :=
  {| reader_GetFrame := frames_by_number; getCurrentFramePosition := 7;
     render_time := quarter_ms |}.

(** A player that has just fetched frame 8. *)
Definition showing_8 : PlayerPrivate :=
  {| video_position := 8; audio_position := 6; last_video_position := 7;
     speed := 1;
     frame := Some {| frame_id := 8; number := 8 |};
     max_sleep_ms := 3000 |}.

(** A reader of [len] frames: positions outside [[1, len]] are refused. *)
Definition bounded_reader (len : Z) (pos : Z) : fetch :=
  if (1 <=? pos) && (pos <=? len)
  then Fetched (Some {| frame_id := Z.to_nat pos; number := pos |})
  else Throws OutOfBoundsFrame.

(** The audio thread is at frame [audio]; the reader holds 100 frames. *)
Definition env_bounded (audio : Z) : Env :=
  {| reader_GetFrame := bounded_reader 100;
     getCurrentFramePosition := audio;
     render_time := zero_ms |}.

(** A player that has just fetched frame 100. *)
Definition showing_100 : PlayerPrivate :=
  {| video_position := 100; audio_position := 99; last_video_position := 99;
     speed := 1;
     frame := Some {| frame_id := 100; number := 100 |};
     max_sleep_ms := 3000 |}.

(* ================================================================= *)
(** ** Notions for the whole run *)

(** The player a run leaves behind. *)
Definition final_player (r : run_end) : PlayerPrivate :=
  match r with
  | Exited p | Running p | Crashed _ p => p
  end.

(** The answer of [isThreadRunning()] for one thread. *)
Definition is_running (t : Threads) (th : thread_id) : bool :=
  match th with
  | AudioPlayback => audio_running t
  | VideoCache => cache_running t
  | VideoPlayback => video_running t
  | Player => player_running t
  end.

Definition is_thread_call (ev : event) : bool :=
  match ev with
  | EvStartThread _ _ | EvStopThread _ _ => true
  | _ => false
  end.

Definition is_audio_call (ev : event) : bool :=
  match ev with
  | EvAudioSeek _ | EvAudioGetPosition => true
  | _ => false
  end.

Definition is_render (ev : event) : bool :=
  match ev with EvRender _ => true | _ => false end.

(** The position lies on the timeline of the stream. *)
Definition on_timeline (info : ReaderInfo) (pos : Z) : Prop :=
  1 <= pos <= video_length info.

(** A stream with video only. *)
Definition info_video_only : ReaderInfo :=
  {| has_audio := false; has_video := true;
     fps := {| num := 24; den := 1 |}; video_length := 100 |}.

(** A player that holds frame 100, the last one, and plays forward. *)
Definition at_the_end : PlayerPrivate :=
  {| video_position := 100; audio_position := 100;
     last_video_position := 100; speed := 1;
     frame := Some {| frame_id := 100; number := 100 |};
     max_sleep_ms := 3000 |}.

(** A paused player whose position was moved from 7 to 40. *)
Definition scrubbed_to_40 : PlayerPrivate :=
  {| video_position := 40; audio_position := 7; last_video_position := 7;
     speed := 0;
     frame := Some {| frame_id := 7; number := 7 |};
     max_sleep_ms := 3000 |}.

(** Only the loop thread is running. *)
Definition only_player_running : Threads :=
  {| audio_running := false; cache_running := false; video_running := false;
     player_running := true |}.

(** The calls to the audio thread of a pass that renders (lines 90-96);
    [p] is the player after [frame = getFrame()]. *)
Definition audio_calls (info : ReaderInfo) (p : PlayerPrivate) : list event :=
  if both_streams info
  then (if speed p =? 1 then [] else [EvAudioSeek (video_position p)])
       ++ [EvAudioGetPosition]
  else [].

(** The debug record of a pass that renders (line 110). *)
Definition debug_record (info : ReaderInfo) (env : Env) (p : PlayerPrivate)
  : event :=
  EvDebug (if both_streams info then frame_diff env p else 0)
    (video_position p)
    (if both_streams info then getCurrentFramePosition env
     else audio_position p)
    (speed p) (render_time env) (base_sleep info env).

(** A sleep at the end of the body that is not strictly between 0 and
    [limit] milliseconds. *)
Definition is_sleep_outside (limit : Z) (ev : event) : bool :=
  match ev with
  | EvSleepMs ms => negb ((0 <? ms) && (ms <? limit))
  | _ => false
  end.

(** A request to the reader for a position off the timeline. *)
Definition is_fetch_off_timeline (info : ReaderInfo) (ev : event) : bool :=
  match ev with
  | EvReaderGetFrame pos => negb ((1 <=? pos) && (pos <=? video_length info))
  | _ => false
  end.

(** The thread starts of [run] (lines 49-54). *)
Definition thread_starts (info : ReaderInfo) : list event :=
  (if has_audio info then [EvStartThread AudioPlayback 8] else [])
  ++ (if has_video info
      then [EvStartThread VideoCache 2; EvStartThread VideoPlayback 4]
      else []).

(* ================================================================= *)
(** * Properties *)

(** ** Signed 64-bit arithmetic *)

Lemma in_rangeb_spec z : Int64.in_rangeb z = true <-> Int64.in_range z.
Proof.
  unfold Int64.in_rangeb, Int64.in_range.
  rewrite andb_true_iff, !Z.leb_le. tauto.
Qed.

Lemma wrap_in_range z : Int64.in_range (Int64.wrap z).
Proof.
  unfold Int64.in_range, Int64.wrap, Int64.min_signed, Int64.max_signed,
    Int64.modulus.
  pose proof (Z.mod_pos_bound (z + 2 ^ 63) (2 ^ 64) ltac:(lia)). lia.
Qed.

Lemma wrap_small z : Int64.in_range z -> Int64.wrap z = z.
Proof.
  unfold Int64.in_range, Int64.wrap, Int64.min_signed, Int64.max_signed,
    Int64.modulus.
  intros H. rewrite Z.mod_small by lia. lia.
Qed.

Lemma add_small a b : Int64.in_range (a + b) -> Int64.add a b = a + b.
Proof. apply wrap_small. Qed.

Lemma sub_small a b : Int64.in_range (a - b) -> Int64.sub a b = a - b.
Proof. apply wrap_small. Qed.

Lemma add_zero a : Int64.in_range a -> Int64.add a 0 = a.
Proof. intros H. rewrite add_small; rewrite Z.add_0_r; auto. Qed.

(** ** The setters leave the other members alone *)

Lemma set_video_position_same p : set_video_position p (video_position p) = p.
Proof. destruct p; reflexivity. Qed.

(** ** [getFrame] *)

Section GetFrameFacts.

Variable info : ReaderInfo.

(** The player [getFrame] leaves behind is the advanced one, whatever the
    reader answers. *)
Lemma getFrame_player GetFrame p :
  snd (fst (getFrame info GetFrame p)) = advance info p.
Proof.
  unfold getFrame. destruct (cached (advance info p)); [reflexivity|].
  destruct (GetFrame _) as [f|[]]; reflexivity.
Qed.

Lemma advance_in_bounds p :
  1 <= video_position p + speed p <= video_length info ->
  Int64.in_range (video_length info) ->
  advance info p = set_video_position p (video_position p + speed p).
Proof.
  intros Hb Hl. unfold advance.
  rewrite add_small by (unfold Int64.in_range, Int64.min_signed in *; lia).
  replace (1 <=? _) with true by (symmetry; apply Z.leb_le; lia).
  replace (_ <=? video_length info) with true by (symmetry; apply Z.leb_le; lia).
  reflexivity.
Qed.

Lemma advance_out_of_bounds p :
  ~ (1 <= video_position p + speed p <= video_length info) ->
  Int64.in_range (video_position p + speed p) ->
  advance info p = p.
Proof.
  intros Hb Hr. unfold advance. rewrite add_small by assumption.
  destruct (1 <=? _) eqn:E1; [|reflexivity].
  destruct (_ <=? video_length info) eqn:E2; [|reflexivity].
  apply Z.leb_le in E1, E2. lia.
Qed.

Lemma advance_paused p :
  speed p = 0 -> Int64.in_range (video_position p) -> advance info p = p.
Proof.
  intros Hs Hr. unfold advance. rewrite Hs, add_zero by assumption.
  destruct (_ && _); [apply set_video_position_same | reflexivity].
Qed.

(** The step of the position is by [speed] or not at all. *)
Lemma advance_cases p :
  (advance info p = p) \/
  (advance info p
   = set_video_position p (Int64.add (video_position p) (speed p))
   /\ 1 <= Int64.add (video_position p) (speed p) <= video_length info).
Proof.
  unfold advance.
  destruct (1 <=? _) eqn:E1; [|now left].
  destruct (_ <=? video_length info) eqn:E2; [|now left].
  apply Z.leb_le in E1, E2. right. split; [reflexivity | lia].
Qed.

End GetFrameFacts.

(** C1.  One call of [getFrame] moves [video_position] to exactly
    [p + s] when [1 <= p + s <= video_length], and leaves it where it is
    when [p + s] lies outside that interval ([p + s] being a value of
    [int64_t], and [video_length] one too). *)
Theorem getFrame_advances_within_bounds info GetFrame p :
  Int64.in_range (video_length info) ->
  Int64.in_range (video_position p + speed p) ->
  let p' := snd (fst (getFrame info GetFrame p)) in
  (1 <= video_position p + speed p <= video_length info ->
   video_position p' = video_position p + speed p)
  /\ (~ (1 <= video_position p + speed p <= video_length info) ->
      video_position p' = video_position p).
Proof.
  intros Hl Hr p'. subst p'. rewrite getFrame_player. split; intros Hb.
  - rewrite advance_in_bounds by assumption. reflexivity.
  - rewrite advance_out_of_bounds by assumption. reflexivity.
Qed.

Lemma getFrame_advances_within_bounds_witness :
  video_position
    (snd (fst (getFrame info_24fps frames_by_number
                 {| video_position := 5; audio_position := 0;
                    last_video_position := 1; speed := 2; frame := None;
                    max_sleep_ms := 3000 |}))) = 7
  /\ video_position
       (snd (fst (getFrame info_24fps frames_by_number
                    {| video_position := 100; audio_position := 0;
                       last_video_position := 1; speed := 1; frame := None;
                       max_sleep_ms := 3000 |}))) = 100.
Proof.
  split.
  - apply (getFrame_advances_within_bounds info_24fps frames_by_number
             (mkPlayer 5 0 1 2 None 3000));
      unfold Int64.in_range, Int64.min_signed, Int64.max_signed; simpl; lia.
  - apply (getFrame_advances_within_bounds info_24fps frames_by_number
             (mkPlayer 100 0 1 1 None 3000));
      unfold Int64.in_range, Int64.min_signed, Int64.max_signed; simpl; lia.
Defined.

Lemma advance_frame info p : frame (advance info p) = frame p.
Proof. unfold advance. destruct (_ && _); reflexivity. Qed.

Lemma advance_last info p :
  last_video_position (advance info p) = last_video_position p.
Proof. unfold advance. destruct (_ && _); reflexivity. Qed.

Lemma advance_audio info p :
  audio_position (advance info p) = audio_position p.
Proof. unfold advance. destruct (_ && _); reflexivity. Qed.

Lemma cached_spec p :
  cached p = true <->
  exists f, frame p = Some f /\ number f = video_position p
            /\ video_position p = last_video_position p.
Proof.
  unfold cached. destruct (frame p) as [f|].
  - rewrite andb_true_iff, !Z.eqb_eq. split.
    + intros [H1 H2]. exists f. auto.
    + intros (g & Hg & H1 & H2). injection Hg as <-. auto.
  - split; [discriminate | intros (g & Hg & _); discriminate].
Qed.

(** With the cached frame at hand [getFrame] calls nobody. *)
Lemma getFrame_hit info GetFrame p :
  cached (advance info p) = true ->
  getFrame info GetFrame p = (Returned (frame p), advance info p, []).
Proof.
  intros H. unfold getFrame. rewrite H, advance_frame. reflexivity.
Qed.

(** Without it, the cache thread is told the position and the reader is
    asked for the frame. *)
Lemma getFrame_miss info GetFrame p :
  cached (advance info p) = false ->
  let pos := video_position (advance info p) in
  snd (getFrame info GetFrame p)
  = [EvSetCurrentFramePosition pos; EvReaderGetFrame pos].
Proof.
  intros H pos. unfold getFrame. rewrite H. fold pos.
  destruct (GetFrame pos) as [f|[]]; reflexivity.
Qed.

Lemma getFrame_no_render info GetFrame p :
  existsb is_render_or_drift (snd (getFrame info GetFrame p)) = false.
Proof.
  destruct (cached (advance info p)) eqn:E.
  - rewrite getFrame_hit by assumption. reflexivity.
  - rewrite getFrame_miss by assumption. reflexivity.
Qed.

(** C3.  [getFrame] hands back the frame it holds, and asks the reader
    for nothing, exactly when that frame exists, carries the number of the
    advanced [video_position], and that position equals
    [last_video_position]; in particular, paused ([speed = 0]) on the
    frame it holds, any number of calls answer that same frame, leave the
    player as it is and never reach the reader. *)
Theorem getFrame_reuses_cached_frame info GetFrame p :
  let p1 := advance info p in
  ((exists f, frame p = Some f /\ number f = video_position p1
              /\ video_position p1 = last_video_position p)
   <-> (fst (fst (getFrame info GetFrame p)) = Returned (frame p)
        /\ frame p <> None
        /\ existsb is_fetch (snd (getFrame info GetFrame p)) = false))
  /\ (forall readers,
        speed p = 0 ->
        Int64.in_range (video_position p) ->
        (exists f, frame p = Some f /\ number f = video_position p
                   /\ video_position p = last_video_position p) ->
        getFrame_repeat info readers p
        = (map (fun _ => Returned (frame p)) readers, p, [])).
Proof.
  intros p1. split.
  - assert (Hc : cached p1 = true <->
                 exists f, frame p = Some f /\ number f = video_position p1
                           /\ video_position p1 = last_video_position p).
    { rewrite cached_spec. subst p1.
      rewrite advance_frame, advance_last. reflexivity. }
    rewrite <- Hc. clear Hc. split.
    + intros H. rewrite getFrame_hit by assumption. simpl.
      apply cached_spec in H. destruct H as (f & Hf & _).
      subst p1. rewrite advance_frame in Hf. rewrite Hf.
      repeat split. discriminate.
    + intros (_ & _ & H). destruct (cached p1) eqn:E; [reflexivity|].
      rewrite getFrame_miss in H by assumption. discriminate.
  - intros readers Hs Hr Hc. apply cached_spec in Hc.
    induction readers as [|r rest IH]; [reflexivity|].
    simpl. pose proof (advance_paused info p Hs Hr) as Ha.
    rewrite getFrame_hit by (rewrite Ha; assumption).
    rewrite Ha, IH. reflexivity.
Qed.

Lemma getFrame_reuses_cached_frame_witness :
  getFrame_repeat info_24fps [closed_reader; broken_reader; frames_by_number]
    paused_on_7
  = ([Returned (frame paused_on_7); Returned (frame paused_on_7);
      Returned (frame paused_on_7)], paused_on_7, []).
Proof.
  apply (proj2 (getFrame_reuses_cached_frame info_24fps closed_reader
                  paused_on_7)
           [closed_reader; broken_reader; frames_by_number]).
  - reflexivity.
  - unfold Int64.in_range, Int64.min_signed, Int64.max_signed; simpl; lia.
  - exists {| frame_id := 7; number := 7 |}. repeat split.
Defined.

(** ** [startPlayback] *)

(** C7.  [startPlayback] answers [false] exactly when
    [video_position < 0], and then starts and stops nothing; for every
    other position, 0 included, it first runs [stopPlayback], then starts
    the loop thread, and answers [true]. *)
Theorem startPlayback_rejects_negative_position info t p :
  (fst (startPlayback info t p) = false <-> video_position p < 0)
  /\ (video_position p < 0 -> startPlayback info t p = (false, []))
  /\ (0 <= video_position p ->
      startPlayback info t p
      = (true, stopPlayback info t p ++ [EvStartThread Player 1])).
Proof.
  unfold startPlayback.
  destruct (video_position p <? 0) eqn:E;
    [apply Z.ltb_lt in E | apply Z.ltb_ge in E]; simpl.
  - repeat split; intros; try reflexivity; try lia.
  - repeat split; intros; try reflexivity; try lia; try discriminate.
Qed.

Lemma startPlayback_rejects_negative_position_witness :
  startPlayback info_24fps all_running
    (set_video_position initial (-1)) = (false, [])
  /\ startPlayback info_24fps all_running (set_video_position initial 0)
     = (true, [EvStopThread AudioPlayback 3000; EvStopThread VideoCache 3000;
               EvStopThread VideoPlayback 3000; EvStopThread Player 3000;
               EvStartThread Player 1]).
Proof.
  split.
  - apply (startPlayback_rejects_negative_position info_24fps all_running
             (set_video_position initial (-1))). simpl. lia.
  - apply (startPlayback_rejects_negative_position info_24fps all_running
             (set_video_position initial 0)). simpl. lia.
Defined.

(** ** The pausing code *)

Lemma run_iteration_returned info env p f p1 evs :
  getFrame info (reader_GetFrame env) p = (Returned f, p1, evs) ->
  run_iteration info env p
  = Continue (fst (after_getFrame info env (set_frame p1 f)))
             (evs ++ snd (after_getFrame info env (set_frame p1 f))).
Proof.
  intros H. unfold run_iteration. rewrite H.
  destruct (after_getFrame _ _ _). reflexivity.
Qed.

(** C6.  When, after [frame = getFrame()], the player is paused on the
    frame last displayed ([speed = 0] and
    [video_position = last_video_position]) or is past the end
    ([video_position > video_length]), the pass sets [speed] to 0,
    sleeps one [frame_duration], and goes back to the head of the loop:
    every other member keeps the value it had after [getFrame], nothing
    is handed to the video thread, the audio position is not sampled and
    no drift is corrected. *)
Theorem pause_guard_only_sleeps info env p f p1 evs :
  getFrame info (reader_GetFrame env) p = (Returned f, p1, evs) ->
  paused_or_ended info (set_frame p1 f) = true ->
  let it := run_iteration info env p in
  it = Continue (set_speed (set_frame p1 f) 0)
                (evs ++ [EvSleepFor (frame_duration info)])
  /\ speed (player_after it) = 0
  /\ last_video_position (player_after it) = last_video_position p
  /\ audio_position (player_after it) = audio_position p
  /\ video_position (player_after it) = video_position p1
  /\ frame (player_after it) = f
  /\ max_sleep_ms (player_after it) = max_sleep_ms p
  /\ existsb is_render_or_drift (events_of it) = false.
Proof.
  intros Hg Hp it. subst it.
  rewrite (run_iteration_returned _ _ _ _ _ _ Hg).
  unfold after_getFrame. rewrite Hp. simpl.
  pose proof (getFrame_player info (reader_GetFrame env) p) as Hpl.
  pose proof (getFrame_no_render info (reader_GetFrame env) p) as Hev.
  rewrite Hg in Hpl, Hev. simpl in Hpl, Hev. subst p1.
  rewrite advance_last, advance_audio.
  repeat split.
  - unfold advance. destruct (_ && _); reflexivity.
  - rewrite existsb_app, Hev. reflexivity.
Qed.

Lemma pause_guard_only_sleeps_witness :
  run_iteration info_24fps env_closed paused_on_7
  = Continue paused_on_7 [EvSleepFor (frame_duration info_24fps)].
Proof.
  apply (pause_guard_only_sleeps info_24fps env_closed paused_on_7
           (frame paused_on_7) paused_on_7 []); reflexivity.
Defined.

(** ** Failures of the reader *)

Lemma run_loop_continue info env rest p p' evs :
  run_iteration info env p = Continue p' evs ->
  run_loop info ((false, env) :: rest) p
  = (fst (run_loop info rest p'), evs ++ snd (run_loop info rest p')).
Proof.
  intros H. simpl. rewrite H. destruct (run_loop info rest p'). reflexivity.
Qed.

(** C8.  [getFrame] lets no failure of the two kinds escape: when the
    reader raises nothing but [ReaderClosed] and [OutOfBoundsFrame],
    [getFrame] returns, the pass through the body ends normally and the
    loop goes on with the rest of its schedule; a reader that raises one
    of the two makes [getFrame] return the empty pointer; and these are
    the only kinds handled: any other exception leaves [getFrame]. *)
Theorem getFrame_soft_failures info env p :
  ((forall pos e, reader_GetFrame env pos = Throws e -> handled e = true) ->
   (exists f, fst (fst (getFrame info (reader_GetFrame env) p)) = Returned f)
   /\ (forall rest, exists p' evs,
         run_iteration info env p = Continue p' evs
         /\ run_loop info ((false, env) :: rest) p
            = (fst (run_loop info rest p'),
               evs ++ snd (run_loop info rest p'))))
  /\ (forall e,
        cached (advance info p) = false ->
        reader_GetFrame env (video_position (advance info p)) = Throws e ->
        fst (fst (getFrame info (reader_GetFrame env) p))
        = if handled e then Returned None else Propagated e).
Proof.
  split.
  - intros Hsoft.
    assert (Hret : exists f p1 evs,
               getFrame info (reader_GetFrame env) p = (Returned f, p1, evs)).
    { unfold getFrame. destruct (cached (advance info p)); [eauto|].
      destruct (reader_GetFrame env _) as [f|e] eqn:E; [eauto|].
      apply Hsoft in E. destruct e; try discriminate; eauto. }
    destruct Hret as (f & p1 & evs & Hg). split.
    + exists f. rewrite Hg. reflexivity.
    + intros rest.
      pose proof (run_iteration_returned _ _ _ _ _ _ Hg) as Hit.
      eexists. eexists. split; [exact Hit|].
      apply run_loop_continue. exact Hit.
  - intros e Hc He. unfold getFrame. rewrite Hc, He.
    destruct e; reflexivity.
Qed.

Lemma getFrame_soft_failures_witness :
  (exists f, fst (fst (getFrame info_24fps (reader_GetFrame env_closed) initial))
             = Returned f)
  /\ fst (fst (getFrame info_24fps (reader_GetFrame env_closed) initial))
     = Returned None
  /\ fst (fst (getFrame info_24fps (reader_GetFrame env_broken) initial))
     = Propagated OtherException.
Proof.
  split; [|split].
  - apply (proj1 (getFrame_soft_failures info_24fps env_closed initial)).
    intros pos e H. injection H as <-. reflexivity.
  - apply (proj2 (getFrame_soft_failures info_24fps env_closed initial)
             ReaderClosed); reflexivity.
  - apply (proj2 (getFrame_soft_failures info_24fps env_broken initial)
             OtherException); reflexivity.
Defined.

(** ** Binary64: conversions *)

Lemma to_int64_in_range x : Int64.in_range (to_int64 x).
Proof.
  unfold to_int64.
  destruct (is_finite x && Int64.in_rangeb (trunc x)) eqn:E.
  - apply andb_true_iff in E. apply in_rangeb_spec. tauto.
  - unfold Int64.in_range, Int64.min_signed, Int64.max_signed. lia.
Qed.

Lemma to_int64_trunc x :
  is_finite x = true -> Int64.in_range (trunc x) -> to_int64 x = trunc x.
Proof.
  intros Hf Hr. unfold to_int64. rewrite Hf.
  apply in_rangeb_spec in Hr. rewrite Hr. reflexivity.
Qed.

Lemma shiftl_pos_nonneg m e : 0 <= e -> Z.shiftl (Zpos m) e = Zpos m * 2 ^ e.
Proof. intros H. apply Z.shiftl_mul_pow2. assumption. Qed.

Lemma shiftl_pos_neg m e : e < 0 -> Z.shiftl (Zpos m) e = Zpos m / 2 ^ (- e).
Proof.
  intros H. rewrite <- Z.shiftr_opp_r. apply Z.shiftr_div_pow2. lia.
Qed.

Lemma trunc_spec x : truncation_of (value x) (trunc x).
Proof.
  destruct x as [s|s| |s m e];
    try (unfold truncation_of, Qle, Qlt; simpl; lia).
  unfold value, trunc. destruct (0 <=? e) eqn:E.
  - apply Z.leb_le in E. rewrite shiftl_pos_nonneg by assumption.
    unfold truncation_of. rewrite <- !Zle_Qle, <- !Zlt_Qlt. lia.
  - apply Z.leb_gt in E. rewrite shiftl_pos_neg by assumption.
    assert (Hd : 0 < 2 ^ (- e)) by (apply Z.pow_pos_nonneg; lia).
    pose proof (Z.div_mod (Zpos m) (2 ^ (- e)) ltac:(lia)) as Hdm.
    pose proof (Z.mod_pos_bound (Zpos m) (2 ^ (- e)) Hd) as Hmb.
    unfold truncation_of, Qle, Qlt, inject_Z. simpl Qnum. simpl Qden.
    rewrite Z2Pos.id by assumption.
    destruct s; simpl cond_Zopp; split; intros H; split; nia.
Qed.

(** ** The pass through the body: position and sleeps *)

Lemma adjust_drift_cases info diff s p :
  adjust_drift info diff s p
  = (if (0 <? diff) && both_streams info
     then (p, Int64.add s (drift_delay info diff))
     else if (diff <? -10) && both_streams info
          then (set_video_position p (skip_ahead (video_position p) diff), 0)
          else (p, s)).
Proof.
  unfold adjust_drift, both_streams. rewrite <- !andb_assoc. reflexivity.
Qed.

Lemma render_and_adjust_both info env p :
  both_streams info = true ->
  render_and_adjust info env p
  = (let p2 := set_audio_position
                 (set_last_video_position p (video_position p))
                 (getCurrentFramePosition env) in
     let diff := frame_diff env p in
     let seek := if speed p =? 1 then []
                 else [EvAudioSeek (video_position p)] in
     (fst (adjust_drift info diff (base_sleep info env) p2),
      snd (adjust_drift info diff (base_sleep info env) p2),
      [EvRender (frame p)] ++ (seek ++ [EvAudioGetPosition])
      ++ [EvDebug diff (video_position p) (getCurrentFramePosition env)
            (speed p) (render_time env) (base_sleep info env)])).
Proof.
  intros Hb. unfold render_and_adjust, sample_audio. rewrite Hb.
  cbv zeta. simpl video_position. simpl audio_position. simpl speed.
  fold (frame_diff env p).
  destruct (adjust_drift _ _ _ _). reflexivity.
Qed.

Lemma render_and_adjust_single info env p :
  both_streams info = false ->
  render_and_adjust info env p
  = (set_last_video_position p (video_position p), base_sleep info env,
     [EvRender (frame p)]
     ++ [EvDebug 0 (video_position p) (audio_position p) (speed p)
           (render_time env) (base_sleep info env)]).
Proof.
  intros Hb. unfold render_and_adjust, sample_audio. rewrite Hb.
  cbv zeta. rewrite adjust_drift_cases, Hb. reflexivity.
Qed.

Lemma render_and_adjust_position info env p :
  let p' := fst (fst (render_and_adjust info env p)) in
  video_position p' = video_position p
  \/ (both_streams info = true /\ frame_diff env p < -10
      /\ video_position p'
         = skip_ahead (video_position p) (frame_diff env p)).
Proof.
  intros p'. subst p'. destruct (both_streams info) eqn:Hb.
  - rewrite render_and_adjust_both by assumption. cbv zeta.
    rewrite adjust_drift_cases, Hb, !andb_true_r.
    destruct (0 <? frame_diff env p); [now left|].
    destruct (frame_diff env p <? -10) eqn:E; [|now left].
    apply Z.ltb_lt in E. right. repeat split. assumption.
  - rewrite render_and_adjust_single by assumption. now left.
Qed.

Lemma render_and_adjust_max_sleep info env p :
  max_sleep_ms (fst (fst (render_and_adjust info env p))) = max_sleep_ms p.
Proof.
  destruct (both_streams info) eqn:Hb.
  - rewrite render_and_adjust_both by assumption. cbv zeta.
    rewrite adjust_drift_cases, Hb, !andb_true_r.
    destruct (0 <? _); [reflexivity|]. destruct (_ <? -10); reflexivity.
  - rewrite render_and_adjust_single by assumption. reflexivity.
Qed.

Lemma render_and_adjust_no_sleep info env p :
  existsb is_sleep (snd (render_and_adjust info env p)) = false.
Proof.
  destruct (both_streams info) eqn:Hb.
  - rewrite render_and_adjust_both by assumption. cbv zeta.
    destruct (speed p =? 1); reflexivity.
  - rewrite render_and_adjust_single by assumption. reflexivity.
Qed.

Lemma getFrame_no_sleep info GetFrame p :
  existsb is_sleep (snd (getFrame info GetFrame p)) = false.
Proof.
  destruct (cached (advance info p)) eqn:E.
  - rewrite getFrame_hit by assumption. reflexivity.
  - rewrite getFrame_miss by assumption. reflexivity.
Qed.

Lemma advance_max_sleep info p : max_sleep_ms (advance info p) = max_sleep_ms p.
Proof. unfold advance. destruct (_ && _); reflexivity. Qed.

(** The shape of a pass, by the result of [getFrame] and of the test of
    the pausing code. *)
Lemma run_iteration_cases info env p :
  let p1 := advance info p in
  let evs := snd (getFrame info (reader_GetFrame env) p) in
  (exists e, run_iteration info env p = Uncaught e p1 evs)
  \/ (exists f,
        paused_or_ended info (set_frame p1 f) = true
        /\ run_iteration info env p
           = Continue (set_speed (set_frame p1 f) 0)
                      (evs ++ [EvSleepFor (frame_duration info)]))
  \/ (exists f,
        paused_or_ended info (set_frame p1 f) = false
        /\ let r := render_and_adjust info env (set_frame p1 f) in
           run_iteration info env p
           = Continue (fst (fst r))
               (evs ++ snd r ++ final_sleep (snd (fst r)) (fst (fst r)))).
Proof.
  intros p1 evs. subst p1 evs.
  pose proof (getFrame_player info (reader_GetFrame env) p) as Hp.
  unfold run_iteration.
  destruct (getFrame info (reader_GetFrame env) p) as [[[f|e] q] evs].
  - simpl in Hp. subst q. simpl snd. right.
    unfold after_getFrame.
    destruct (paused_or_ended info _) eqn:E.
    + left. exists f. split; [assumption | reflexivity].
    + right. exists f. split; [assumption|].
      unfold render_and_sleep.
      destruct (render_and_adjust _ _ _) as [[p3 s] evs']. reflexivity.
  - simpl in Hp. subst q. left. exists e. reflexivity.
Qed.

(** C2, as stated, fails: with the audio thread at frame 26 and the
    player at frame 5, the pass steps to frame 6 and then skips ahead to
    frame 16: the position has moved by 11 with [speed = 1]. *)
Lemma position_moves_only_by_speed_counterexample :
  ~ position_moves_only_by_speed info_24fps (env_playing 26) playing_at_5.
Proof.
  unfold position_moves_only_by_speed.
  replace (video_position
             (player_after
                (run_iteration info_24fps (env_playing 26) playing_at_5)))
    with 16 by (vm_compute; reflexivity).
  simpl. lia.
Qed.

(** C2, amended.  Over one pass through the body [video_position]
    changes in two places only: [getFrame] adds [speed], and only when
    the sum lies within [[1, video_length]]; and the drift adjustment,
    when both streams are present and the video is more than 10 frames
    behind the audio, replaces it by the skipped-ahead position, with no
    test against that interval. *)
Theorem position_changes_by_speed_or_skip info env p :
  let p1 := advance info p in
  let p' := player_after (run_iteration info env p) in
  (video_position p1 = video_position p
   \/ (video_position p1 = Int64.add (video_position p) (speed p)
       /\ 1 <= Int64.add (video_position p) (speed p) <= video_length info))
  /\ (video_position p' = video_position p1
      \/ (both_streams info = true
          /\ frame_diff env p1 < -10
          /\ video_position p'
             = skip_ahead (video_position p1) (frame_diff env p1))).
Proof.
  intros p1 p'. split.
  - subst p1. destruct (advance_cases info p) as [H|[H Hb]]; rewrite H.
    + now left.
    + right. split; [reflexivity | assumption].
  - subst p'. fold p1.
    destruct (run_iteration_cases info env p) as [[e H]|[[f [_ H]]|[f [_ H]]]];
      fold p1 in H; cbv zeta in H; rewrite H; simpl player_after.
    + now left.
    + now left.
    + pose proof (render_and_adjust_position info env (set_frame p1 f)) as Hr.
      exact Hr.
Qed.

(** C9, as stated, fails: paused on a stream of one frame every four
    seconds, the pass sleeps 4000 ms while [max_sleep_ms] is 3000. *)
Lemma every_sleep_below_max_counterexample :
  ~ every_sleep_below_max info_quarter_fps env_closed paused_on_7.
Proof.
  unfold every_sleep_below_max.
  replace (events_of (run_iteration info_quarter_fps env_closed paused_on_7))
    with [EvSleepFor (S754_finite false 8796093022208000 (-41))]
    by (vm_compute; reflexivity).
  intros H. inversion H as [|ev l Hs _]; subst.
  destruct Hs as [_ Hs]. vm_compute in Hs. discriminate.
Qed.

(** C9, amended.  In a pass that renders, the sleep at the end of the
    body is performed exactly when [0 < sleep_time < max_sleep_ms]: then
    it is the last call of the pass, lasts [sleep_time] milliseconds and
    is the only sleep; otherwise the pass does not sleep at all.  Hence
    every sleep of a whole number of milliseconds is shorter than
    [max_sleep_ms]; the one other sleep of a pass, that of the pausing
    code, lasts one [frame_duration] whatever [max_sleep_ms] is. *)
Theorem final_sleep_below_max info env p :
  (forall f p1 g,
     getFrame info (reader_GetFrame env) p = (Returned f, p1, g) ->
     paused_or_ended info (set_frame p1 f) = false ->
     let s := resulting_sleep info env (set_frame p1 f) in
     let before := g ++ snd (render_and_adjust info env (set_frame p1 f)) in
     existsb is_sleep before = false
     /\ (0 < s < max_sleep_ms p ->
         events_of (run_iteration info env p) = before ++ [EvSleepMs s])
     /\ (~ (0 < s < max_sleep_ms p) ->
         events_of (run_iteration info env p) = before))
  /\ (forall ms, In (EvSleepMs ms) (events_of (run_iteration info env p)) ->
                 0 < ms < max_sleep_ms p)
  /\ (forall d, In (EvSleepFor d) (events_of (run_iteration info env p)) ->
                d = frame_duration info).
Proof.
  assert (Hfin : forall s q,
             final_sleep s q
             = if (0 <? s) && (s <? max_sleep_ms q) then [EvSleepMs s] else [])
    by reflexivity.
  assert (Hno : forall evs ev, existsb is_sleep evs = false ->
                               is_sleep ev = true -> ~ In ev evs).
  { intros evs ev Hn Hs Hin.
    assert (existsb is_sleep evs = true)
      by (apply existsb_exists; exists ev; auto).
    congruence. }
  pose proof (getFrame_no_sleep info (reader_GetFrame env) p) as Hg.
  split; [|split].
  - intros f p1 g Hgf Hp s before.
    pose proof (getFrame_player info (reader_GetFrame env) p) as Hpl.
    rewrite Hgf in Hpl, Hg. simpl in Hpl, Hg.
    pose proof (render_and_adjust_no_sleep info env (set_frame p1 f)) as Hrs.
    pose proof (render_and_adjust_max_sleep info env (set_frame p1 f)) as Hmx.
    simpl max_sleep_ms in Hmx.
    replace (max_sleep_ms p1) with (max_sleep_ms p) in Hmx
      by (rewrite Hpl; symmetry; apply advance_max_sleep).
    assert (Hev : events_of (run_iteration info env p)
                  = before
                    ++ (if (0 <? s) && (s <? max_sleep_ms p)
                        then [EvSleepMs s] else [])).
    { rewrite (run_iteration_returned _ _ _ _ _ _ Hgf).
      unfold after_getFrame. rewrite Hp. unfold render_and_sleep.
      subst s before. unfold resulting_sleep.
      destruct (render_and_adjust info env (set_frame p1 f))
        as [[p3 s3] evs3].
      cbn [fst snd events_of] in *. rewrite Hfin, Hmx.
      rewrite app_assoc. reflexivity. }
    split; [|split].
    + subst before. rewrite existsb_app, Hg, Hrs. reflexivity.
    + intros [H1 H2]. rewrite Hev.
      apply Z.ltb_lt in H1, H2. rewrite H1, H2. reflexivity.
    + intros Hn. rewrite Hev.
      destruct (0 <? s) eqn:E1; [|apply app_nil_r].
      destruct (s <? max_sleep_ms p) eqn:E2; [|apply app_nil_r].
      apply Z.ltb_lt in E1, E2. lia.
  - intros ms Hin.
    destruct (run_iteration_cases info env p) as [[e H]|[[f [_ H]]|[f [_ H]]]];
      cbv zeta in H; rewrite H in Hin; simpl events_of in Hin.
    + exfalso. revert Hin. apply Hno; [assumption | reflexivity].
    + apply in_app_or in Hin. destruct Hin as [Hin|[Hin|[]]].
      * exfalso. revert Hin. apply Hno; [assumption | reflexivity].
      * discriminate.
    + apply in_app_or in Hin. destruct Hin as [Hin|Hin].
      { exfalso. revert Hin. apply Hno; [assumption | reflexivity]. }
      apply in_app_or in Hin. destruct Hin as [Hin|Hin].
      { exfalso. revert Hin.
        apply Hno; [apply render_and_adjust_no_sleep | reflexivity]. }
      rewrite Hfin in Hin.
      rewrite render_and_adjust_max_sleep in Hin. simpl in Hin.
      rewrite advance_max_sleep in Hin.
      destruct (0 <? _) eqn:E1; [|destruct Hin].
      destruct (_ <? max_sleep_ms p) eqn:E2; [|destruct Hin].
      destruct Hin as [Hin|[]]. injection Hin as <-.
      apply Z.ltb_lt in E1, E2. lia.
  - intros d Hin.
    destruct (run_iteration_cases info env p) as [[e H]|[[f [_ H]]|[f [_ H]]]];
      cbv zeta in H; rewrite H in Hin; simpl events_of in Hin.
    + exfalso. revert Hin. apply Hno; [assumption | reflexivity].
    + apply in_app_or in Hin. destruct Hin as [Hin|[Hin|[]]].
      * exfalso. revert Hin. apply Hno; [assumption | reflexivity].
      * injection Hin as <-. reflexivity.
    + apply in_app_or in Hin. destruct Hin as [Hin|Hin].
      { exfalso. revert Hin. apply Hno; [assumption | reflexivity]. }
      apply in_app_or in Hin. destruct Hin as [Hin|Hin].
      { exfalso. revert Hin.
        apply Hno; [apply render_and_adjust_no_sleep | reflexivity]. }
      rewrite Hfin in Hin. destruct (_ && _); [|destruct Hin].
      destruct Hin as [Hin|[]]. discriminate.
Qed.

Lemma final_sleep_below_max_witness :
  events_of (run_iteration info_24fps (env_playing 6) playing_at_5)
  = ([EvSetCurrentFramePosition 6; EvReaderGetFrame 6]
     ++ snd (render_and_adjust info_24fps (env_playing 6)
               (set_frame (set_video_position playing_at_5 6)
                  (Some {| frame_id := 6; number := 6 |}))))
    ++ [EvSleepMs 41]
  /\ 0 < 41 < max_sleep_ms playing_at_5.
Proof.
  pose proof (final_sleep_below_max info_24fps (env_playing 6) playing_at_5)
    as (H1 & H2 & _).
  split.
  - apply (H1 (Some {| frame_id := 6; number := 6 |})
              (set_video_position playing_at_5 6)
              [EvSetCurrentFramePosition 6; EvReaderGetFrame 6]).
    + reflexivity.
    + reflexivity.
    + vm_compute. split; reflexivity.
  - apply (H2 41). vm_compute. auto 10.
Defined.

(** ** Binary64: signs *)

Lemma binary_round_aux_sign s m e l :
  nonneg_or_nan (binary_round_aux prec emax s m e l) \/
  sign (binary_round_aux prec emax s m e l) = s.
Proof.
  unfold binary_round_aux.
  destruct (shr_fexp prec emax m e l) as [mrs' e'].
  destruct (shr_fexp prec emax _ e' loc_Exact) as [mrs'' e''].
  destruct (shr_m mrs'') as [|q|q].
  - right. reflexivity.
  - right. destruct (e'' <=? emax - prec); reflexivity.
  - left. exact I.
Qed.

Lemma binary_round_aux_nonneg m e l :
  nonneg_or_nan (binary_round_aux prec emax false m e l).
Proof.
  destruct (binary_round_aux_sign false m e l) as [H|H]; [assumption|].
  unfold nonneg_or_nan. destruct (binary_round_aux _ _ _ _ _ _); auto.
Qed.

Lemma of_Z_nonneg z : 0 <= z -> nonneg_or_nan (of_Z z).
Proof.
  intros H. unfold of_Z, binary_normalize.
  destruct z as [|q|q]; [reflexivity| |lia].
  unfold binary_round. destruct (shl_align _ _ _) as [mz ez].
  apply binary_round_aux_nonneg.
Qed.

Lemma mul_nonneg x y :
  nonneg_or_nan x -> nonneg_or_nan y -> nonneg_or_nan (Double.mul x y).
Proof.
  destruct x as [sx|sx| |sx mx ex]; destruct y as [sy|sy| |sy my ey];
    simpl; intros Hx Hy; try exact I; try (subst; reflexivity).
  subst. apply binary_round_aux_nonneg.
Qed.

Lemma div_nonneg x y :
  nonneg_or_nan x -> nonneg_or_nan y -> nonneg_or_nan (Double.div x y).
Proof.
  destruct x as [sx|sx| |sx mx ex]; destruct y as [sy|sy| |sy my ey];
    simpl; intros Hx Hy; try exact I; try (subst; reflexivity).
  subst. unfold Double.div, SFdiv.
  destruct (SFdiv_core_binary _ _ _ _ _ _) as [[mz ez] lz].
  apply binary_round_aux_nonneg.
Qed.

(** A stream with a positive frame rate has a frame duration that is NaN
    or not negative. *)
Lemma frame_duration_nonneg info :
  0 < num (fps info) -> 0 < den (fps info) ->
  nonneg_or_nan (frame_duration info).
Proof.
  intros Hn Hd. unfold frame_duration, ToDouble.
  repeat apply div_nonneg; apply of_Z_nonneg; lia.
Qed.

Lemma value_nonneg x : nonneg_or_nan x -> (0 <= value x)%Q.
Proof.
  destruct x as [s|s| |s m e]; unfold nonneg_or_nan, value, sign; intros H;
    try (unfold Qle; simpl; lia).
  subst s. destruct (0 <=? e) eqn:E.
  - rewrite <- (Zle_Qle 0). cbv [cond_Zopp].
    apply Z.mul_nonneg_nonneg; [lia | apply Z.pow_nonneg; lia].
  - unfold Qle. simpl. lia.
Qed.

(** Truncation of a value strictly between -1 and 1. *)
Lemma trunc_small x :
  (inject_Z (-1) < value x)%Q -> (value x < inject_Z 1)%Q -> trunc x = 0.
Proof.
  intros Hlo Hhi. destruct (trunc_spec x) as [Hpos Hneg].
  destruct (Qlt_le_dec (value x) 0) as [Hn|Hp].
  - destruct (Hneg (Qlt_le_weak _ _ Hn)) as [H1 H2].
    pose proof (Qlt_le_trans _ _ _ Hlo H2) as H3.
    pose proof (Qlt_trans _ _ _ H1 Hn) as H4.
    change 0%Q with (inject_Z 0) in H4.
    rewrite <- Zlt_Qlt in H3, H4. lia.
  - destruct (Hpos Hp) as [H1 H2].
    pose proof (Qle_lt_trans _ _ _ H1 Hhi) as H3.
    pose proof (Qle_lt_trans _ _ _ Hp H2) as H4.
    change 0%Q with (inject_Z 0) in H4.
    rewrite <- Zlt_Qlt in H3, H4. lia.
Qed.

(** Truncation of a value of at least 1. *)
Lemma trunc_ge_one x : (inject_Z 1 <= value x)%Q -> 1 <= trunc x.
Proof.
  intros H. destruct (trunc_spec x) as [Hpos _].
  assert (Hp : (0 <= value x)%Q).
  { apply Qle_trans with (inject_Z 1); [|assumption].
    unfold Qle; simpl; lia. }
  destruct (Hpos Hp) as [_ H2].
  pose proof (Qle_lt_trans _ _ _ H H2) as H3.
  rewrite <- Zlt_Qlt in H3. lia.
Qed.

(** A value lies below its truncation plus one. *)
Lemma trunc_upper x : (value x < inject_Z (trunc x + 1))%Q.
Proof.
  destruct (trunc_spec x) as [Hpos Hneg].
  destruct (Qlt_le_dec (value x) 0) as [Hn|Hp].
  - destruct (Hneg (Qlt_le_weak _ _ Hn)) as [_ H2].
    apply Qle_lt_trans with (inject_Z (trunc x)); [assumption|].
    rewrite <- Zlt_Qlt. lia.
  - apply Hpos. assumption.
Qed.

(** ** The sleep time and its adjustment *)

Lemma resulting_sleep_ahead info env p :
  both_streams info = true ->
  0 < frame_diff env p ->
  resulting_sleep info env p
  = Int64.add (base_sleep info env) (drift_delay info (frame_diff env p)).
Proof.
  intros Hb Hd. unfold resulting_sleep.
  rewrite render_and_adjust_both by assumption. cbv zeta. simpl.
  rewrite adjust_drift_cases, Hb.
  apply Z.ltb_lt in Hd. rewrite Hd. reflexivity.
Qed.

(** C10.  [sleep_time] and the drift delay are whole milliseconds,
    obtained by dropping the fractional part (rounding toward zero) of
    [frame_duration - render_time] and of
    [video_frame_diff * frame_duration]; with both streams present and
    a positive [video_frame_diff], the truncated product is what is added
    to the truncated difference.  Hence a positive [video_frame_diff]
    whose product with [frame_duration] is below 1 ms adds 0 and leaves
    [sleep_time] as it was (for a product above -1 ms; on a stream with a
    positive frame rate the product is not negative). *)
Theorem sleep_time_is_truncated info env p :
  let plain := Double.sub (frame_duration info) (render_time env) in
  let extra := Double.mul (of_Z (frame_diff env p)) (frame_duration info) in
  (is_finite plain = true -> Int64.in_range (trunc plain) ->
   truncation_of (value plain) (base_sleep info env))
  /\ (is_finite extra = true -> Int64.in_range (trunc extra) ->
      truncation_of (value extra) (drift_delay info (frame_diff env p)))
  /\ (both_streams info = true ->
      0 < frame_diff env p ->
      resulting_sleep info env p
      = Int64.add (base_sleep info env) (drift_delay info (frame_diff env p))
      /\ (is_finite plain = true -> Int64.in_range (trunc plain) ->
          is_finite extra = true -> Int64.in_range (trunc extra) ->
          Int64.in_range (trunc plain + trunc extra) ->
          resulting_sleep info env p = trunc plain + trunc extra)
      /\ (is_finite extra = true ->
          (inject_Z (-1) < value extra)%Q -> (value extra < inject_Z 1)%Q ->
          drift_delay info (frame_diff env p) = 0
          /\ resulting_sleep info env p = base_sleep info env))
  /\ (0 < num (fps info) -> 0 < den (fps info) ->
      0 < frame_diff env p ->
      (0 <= value extra)%Q).
Proof.
  intros plain extra. split; [|split; [|split]].
  - intros Hf Hr. unfold base_sleep. fold plain.
    rewrite to_int64_trunc by assumption. apply trunc_spec.
  - intros Hf Hr. unfold drift_delay. fold extra.
    rewrite to_int64_trunc by assumption. apply trunc_spec.
  - intros Hb Hdiff.
    pose proof (resulting_sleep_ahead info env p Hb Hdiff) as Hres.
    split; [exact Hres|]. split.
    + intros Hfp Hrp Hfe Hre Hsum. rewrite Hres.
      unfold base_sleep, drift_delay. fold plain. fold extra.
      rewrite !to_int64_trunc by assumption.
      apply add_small. assumption.
    + intros Hf Hlo Hhi.
      assert (Ht : trunc extra = 0) by (apply trunc_small; assumption).
      assert (Hz : drift_delay info (frame_diff env p) = 0).
      { unfold drift_delay. fold extra. rewrite to_int64_trunc; auto.
        rewrite Ht.
        unfold Int64.in_range, Int64.min_signed, Int64.max_signed. lia. }
      split; [assumption|].
      rewrite Hres, Hz. apply add_zero. apply to_int64_in_range.
  - intros Hn Hd Hdiff. apply value_nonneg. apply mul_nonneg.
    + apply of_Z_nonneg. lia.
    + apply frame_duration_nonneg; assumption.
Qed.

Lemma sleep_time_is_truncated_witness :
  truncation_of (1 # 4) (base_sleep info_2000fps env_audio_at_7)
  /\ resulting_sleep info_2000fps env_audio_at_7 showing_8
     = base_sleep info_2000fps env_audio_at_7
  /\ resulting_sleep info_24fps (env_playing 7) showing_8 = 41 + 41.
Proof.
  pose proof (sleep_time_is_truncated info_2000fps env_audio_at_7 showing_8)
    as (H1 & _ & H3 & _).
  pose proof (sleep_time_is_truncated info_24fps (env_playing 7) showing_8)
    as (_ & _ & H3' & _).
  split; [|split].
  - apply H1; [reflexivity | vm_compute; split; discriminate].
  - apply (H3 eq_refl eq_refl).
    + reflexivity.
    + vm_compute. reflexivity.
    + vm_compute. reflexivity.
  - apply (H3' eq_refl eq_refl).
    + reflexivity.
    + vm_compute. split; discriminate.
    + reflexivity.
    + vm_compute. split; discriminate.
    + vm_compute. split; discriminate.
Defined.

(** C4, as stated, fails: at 2000 frames per second, one frame ahead of
    the audio and 0.25 ms spent rendering, the unadjusted time is 0.25 ms
    and the product 0.5 ms, yet the resulting [sleep_time] is 0: it is
    not their sum, not greater than the unadjusted time, and not even
    greater than the unadjusted time in whole milliseconds. *)
Lemma drift_amplification_counterexample :
  ~ drift_amplification info_2000fps env_audio_at_7 showing_8
  /\ ~ (value (Double.sub (frame_duration info_2000fps)
                 (render_time env_audio_at_7))
        < inject_Z (resulting_sleep info_2000fps env_audio_at_7 showing_8))%Q
  /\ ~ (base_sleep info_2000fps env_audio_at_7
        < resulting_sleep info_2000fps env_audio_at_7 showing_8).
Proof.
  unfold drift_amplification.
  replace (resulting_sleep info_2000fps env_audio_at_7 showing_8) with 0
    by (vm_compute; reflexivity).
  replace (base_sleep info_2000fps env_audio_at_7) with 0
    by (vm_compute; reflexivity).
  replace (Double.sub (frame_duration info_2000fps)
             (render_time env_audio_at_7))
    with quarter_ms by (vm_compute; reflexivity).
  repeat split.
  - intros [_ H]. vm_compute in H. discriminate.
  - intros H. vm_compute in H. discriminate.
  - lia.
Qed.

(** C4, amended.  With both streams present and the video ahead
    ([video_frame_diff > 0]), the resulting [sleep_time] is the unadjusted
    one in whole milliseconds plus the product
    [video_frame_diff * frame_duration] in whole milliseconds, each with
    its fractional part dropped; whenever that product is at least 1 ms
    (and the conversions and the sum fit an [int64_t]) it is strictly
    greater than the unadjusted [sleep_time], and than
    [frame_duration - render_time] itself. *)
Theorem drift_delay_is_added info env p :
  both_streams info = true ->
  0 < frame_diff env p ->
  let plain := Double.sub (frame_duration info) (render_time env) in
  let extra := Double.mul (of_Z (frame_diff env p)) (frame_duration info) in
  resulting_sleep info env p = Int64.add (to_int64 plain) (to_int64 extra)
  /\ (is_finite extra = true ->
      (inject_Z 1 <= value extra)%Q ->
      trunc extra <= Int64.max_signed ->
      base_sleep info env + trunc extra <= Int64.max_signed ->
      resulting_sleep info env p = base_sleep info env + trunc extra
      /\ base_sleep info env < resulting_sleep info env p
      /\ (is_finite plain = true -> Int64.in_range (trunc plain) ->
          (value plain < inject_Z (resulting_sleep info env p))%Q)).
Proof.
  intros Hb Hd plain extra.
  rewrite resulting_sleep_ahead by assumption.
  unfold drift_delay. fold extra. split; [reflexivity|].
  intros Hf H1 Hmax Hsum.
  pose proof (trunc_ge_one extra H1) as Hge.
  assert (Hbase : Int64.in_range (base_sleep info env))
    by apply to_int64_in_range.
  assert (He : to_int64 extra = trunc extra).
  { apply to_int64_trunc; [assumption|].
    unfold Int64.in_range, Int64.min_signed, Int64.max_signed in *. lia. }
  rewrite He. change (to_int64 plain) with (base_sleep info env).
  rewrite add_small
    by (unfold Int64.in_range, Int64.min_signed, Int64.max_signed in *; lia).
  split; [reflexivity|]. split; [lia|].
  intros Hfp Hrp.
  apply Qlt_le_trans with (inject_Z (trunc plain + 1)); [apply trunc_upper|].
  unfold base_sleep. fold plain. rewrite to_int64_trunc by assumption.
  rewrite <- Zle_Qle. lia.
Qed.

Lemma drift_delay_is_added_witness :
  resulting_sleep info_24fps (env_playing 7) showing_8 = 41 + 41
  /\ 41 < resulting_sleep info_24fps (env_playing 7) showing_8
  /\ (value (frame_duration info_24fps)
       < inject_Z (resulting_sleep info_24fps (env_playing 7) showing_8))%Q.
Proof.
  pose proof (drift_delay_is_added info_24fps (env_playing 7) showing_8
                eq_refl eq_refl) as [_ H].
  destruct H as (H1 & H2 & H3).
  - reflexivity.
  - vm_compute. discriminate.
  - vm_compute. discriminate.
  - vm_compute. discriminate.
  - split; [exact H1|]. split; [exact H2|].
    apply H3; [reflexivity | vm_compute; split; discriminate].
Defined.

(** ** Binary64: operations that do not round *)

Lemma iter_xO m d : Zpos (Pos.iter xO m d) = Zpos m * 2 ^ Zpos d.
Proof.
  induction d as [|d IH] using Pos.peano_ind.
  - simpl. lia.
  - rewrite Pos.iter_succ, Pos2Z.inj_succ, Z.pow_succ_r by lia.
    rewrite Pos2Z.inj_xO, IH. lia.
Qed.

Lemma digits_bounds m : 2 ^ (digits m - 1) <= Zpos m < 2 ^ digits m.
Proof.
  unfold digits. induction m as [m IH|m IH|]; simpl digits2_pos.
  - rewrite Pos2Z.inj_succ.
    replace (Z.succ (Zpos (digits2_pos m)) - 1)
      with (Z.succ (Zpos (digits2_pos m) - 1)) by lia.
    rewrite !Z.pow_succ_r by lia. lia.
  - rewrite Pos2Z.inj_succ.
    replace (Z.succ (Zpos (digits2_pos m)) - 1)
      with (Z.succ (Zpos (digits2_pos m) - 1)) by lia.
    rewrite !Z.pow_succ_r by lia. lia.
  - simpl. lia.
Qed.

Lemma digits_unique m k : 2 ^ (k - 1) <= Zpos m < 2 ^ k -> digits m = k.
Proof.
  intros [H1 H2]. pose proof (digits_bounds m) as [H3 H4].
  assert (Hd : 0 < digits m) by (unfold digits; lia).
  assert (k - 1 < digits m).
  { apply (Z.pow_lt_mono_r_iff 2); lia. }
  assert (0 < k).
  { destruct (Z_lt_le_dec 0 k); auto. 
    assert (2 ^ k <= 2 ^ 0) by (destruct k; simpl; try lia). simpl in *. lia. }
  assert (digits m - 1 < k).
  { apply (Z.pow_lt_mono_r_iff 2); lia. }
  lia.
Qed.

Lemma shr_1_even c : 0 <= c -> shr_1 (shr_exact (c * 2)) = shr_exact c.
Proof.
  intros H. destruct c as [|q|q]; [reflexivity| |lia].
  replace (Zpos q * 2) with (Zpos q~0) by lia. reflexivity.
Qed.

Lemma iter_shr_1 p : forall c, 0 <= c ->
  iter_pos shr_1 p (shr_exact (c * 2 ^ Zpos p)) = shr_exact c.
Proof.
  induction p as [p IH|p IH|]; intros c Hc.
  - assert (Hp : 0 <= 2 ^ Zpos p) by (apply Z.pow_nonneg; lia).
    replace (c * 2 ^ Zpos p~1) with ((c * 2 ^ Zpos p * 2 ^ Zpos p) * 2).
    2:{ replace (Zpos p~1) with (Zpos p + Zpos p + 1) by lia.
        rewrite !Z.pow_add_r by lia. lia. }
    cbn [iter_pos]. rewrite shr_1_even by nia. rewrite IH by nia. apply IH. assumption.
  - assert (Hp : 0 <= 2 ^ Zpos p) by (apply Z.pow_nonneg; lia).
    replace (c * 2 ^ Zpos p~0) with (c * 2 ^ Zpos p * 2 ^ Zpos p).
    2:{ replace (Zpos p~0) with (Zpos p + Zpos p) by lia.
        rewrite Z.pow_add_r by lia. lia. }
    cbn [iter_pos]. rewrite IH by nia. apply IH. assumption.
  - cbn [iter_pos]. replace (c * 2 ^ 1) with (c * 2) by lia. apply shr_1_even. assumption.
Qed.

Lemma fexp_normal e : 3 - emax - prec <= e - prec -> fexp prec emax e = e - prec.
Proof. unfold fexp, emin. lia. Qed.

(** Rounding a mantissa of at least 53 digits whose discarded digits are 0. *)
Lemma binary_round_aux_exact s M e c :
  let k := digits M - 53 in
  0 <= k ->
  Zpos M = Zpos c * 2 ^ k ->
  -1074 <= e + k <= 971 ->
  binary_round_aux prec emax s (Zpos M) e loc_Exact = S754_finite s c (e + k).
Proof.
  intros k Hk HM He.
  assert (Hdc : digits c = 53).
  { apply digits_unique. pose proof (digits_bounds M) as [H1 H2].
    replace (digits M) with (53 + k) in H1, H2 by (unfold k; lia).
    replace (53 + k - 1) with (52 + k) in H1 by lia.
    rewrite Z.pow_add_r in H1, H2 by lia.
    assert (0 < 2 ^ k) by (apply Z.pow_pos_nonneg; lia).
    rewrite HM in H1, H2. simpl (53 - 1). nia. }
  unfold binary_round_aux, shr_fexp.
  change (Zdigits2 (Zpos M)) with (digits M).
  rewrite fexp_normal by (unfold prec, emax, k in *; lia).
  replace (digits M + e - prec - e) with k by (unfold prec, k; lia).
  assert (Hshr : shr (shr_record_of_loc (Zpos M) loc_Exact) e k
                 = (shr_exact (Zpos c), e + k)).
  { unfold shr. change (shr_record_of_loc (Zpos M) loc_Exact) with (shr_exact (Zpos M)).
    destruct k as [|p|p] eqn:Ek; [| |lia].
    - rewrite Z.add_0_r. f_equal. f_equal. simpl in HM. lia.
    - rewrite HM. rewrite iter_shr_1 by lia. reflexivity. }
  rewrite Hshr.
  change (loc_of_shr_record (shr_exact (Zpos c))) with loc_Exact.
  change (shr_m (shr_exact (Zpos c))) with (Zpos c).
  change (round_nearest_even (Zpos c) loc_Exact) with (Zpos c).
  change (Zdigits2 (Zpos c)) with (digits c). rewrite Hdc.
  rewrite fexp_normal by (unfold prec, emax; lia).
  replace (53 + (e + k) - prec - (e + k)) with 0 by (unfold prec; lia).
  change (shr (shr_record_of_loc (Zpos c) loc_Exact) (e + k) 0)
    with (shr_exact (Zpos c), e + k).
  change (shr_m (shr_exact (Zpos c))) with (Zpos c). cbv iota beta.
  replace (e + k <=? emax - prec) with true; [reflexivity|].
  symmetry. apply Z.leb_le. unfold emax, prec. lia.
Qed.

Lemma digits_shift M n j :
  0 <= j -> Zpos M = Zpos n * 2 ^ j -> digits M = digits n + j.
Proof.
  intros Hj HM. apply digits_unique. rewrite HM.
  pose proof (digits_bounds n) as [H1 H2].
  assert (0 < digits n) by (unfold digits; lia).
  replace (digits n + j - 1) with (digits n - 1 + j) by lia.
  rewrite !Z.pow_add_r by lia.
  assert (0 < 2 ^ j) by (apply Z.pow_pos_nonneg; lia). nia.
Qed.

Lemma normal_mantissa_digits n :
  digits n <= 53 -> digits (Z.to_pos (Zpos n * 2 ^ (53 - digits n))) = 53.
Proof.
  intros H.
  assert (0 < 2 ^ (53 - digits n)) by (apply Z.pow_pos_nonneg; lia).
  rewrite (digits_shift _ n (53 - digits n)); lia.
Qed.

Lemma binary_round_exact s M ez n j :
  0 <= j -> Zpos M = Zpos n * 2 ^ j -> digits n <= 53 ->
  -1074 <= ez + j + digits n - 53 <= 971 ->
  binary_round prec emax s M ez = normal s n (ez + j).
Proof.
  intros Hj HM Hn He.
  pose proof (digits_shift M n j Hj HM) as HdM.
  assert (Hpn : 0 < 2 ^ (53 - digits n)) by (apply Z.pow_pos_nonneg; lia).
  assert (Hpj : 0 < 2 ^ j) by (apply Z.pow_pos_nonneg; lia).
  unfold binary_round.
  change (Zpos (digits2_pos M)) with (digits M).
  rewrite fexp_normal by (unfold prec, emax; lia).
  unfold shl_align.
  destruct (digits M + ez - prec - ez) as [|d|d] eqn:Ed; unfold prec in Ed.
  - rewrite (binary_round_aux_exact s M ez (Z.to_pos (Zpos n * 2 ^ (53 - digits n)))).
    + unfold normal. f_equal. lia.
    + lia.
    + rewrite Z2Pos.id by nia. rewrite HM.
      replace (digits M - 53) with 0 by lia.
      replace (53 - digits n) with j by lia. lia.
    + lia.
  - rewrite (binary_round_aux_exact s M ez (Z.to_pos (Zpos n * 2 ^ (53 - digits n)))).
    + unfold normal. f_equal. lia.
    + lia.
    + rewrite Z2Pos.id by nia. rewrite HM, <- Z.mul_assoc, <- Z.pow_add_r by lia.
      f_equal. f_equal. lia.
    + lia.
  - assert (Hmz : Zpos (Pos.iter xO M d) = Zpos n * 2 ^ (53 - digits n)).
    { rewrite iter_xO, HM, <- Z.mul_assoc, <- Z.pow_add_r by lia.
      f_equal. f_equal. lia. }
    assert (Hdz : digits (Pos.iter xO M d) = 53).
    { rewrite (digits_shift _ n (53 - digits n)); lia. }
    rewrite (binary_round_aux_exact s _ _ (Pos.iter xO M d)).
    + unfold normal. rewrite <- Hmz, Pos2Z.id. f_equal. unfold prec. lia.
    + lia.
    + rewrite Hdz. simpl. lia.
    + unfold prec. lia.
Qed.

Lemma of_Z_pos z :
  0 < z < 2 ^ 53 -> of_Z z = normal false (Z.to_pos z) 0.
Proof.
  intros Hz. destruct z as [|n|n]; try lia.
  unfold of_Z, binary_normalize. simpl Z.to_pos.
  assert (Hd : 0 < digits n <= 53).
  { split; [unfold digits; lia|].
    pose proof (digits_bounds n) as [H1 _].
    assert (digits n - 1 < 53); [|lia].
    apply (Z.pow_lt_mono_r_iff 2); lia. }
  apply (binary_round_exact false n 0 n 0); rewrite ?Z.pow_0_r; lia.
Qed.

Lemma of_Z_neg z :
  - 2 ^ 53 < z < 0 -> of_Z z = normal true (Z.to_pos (- z)) 0.
Proof.
  intros Hz. destruct z as [|n|n]; try lia.
  unfold of_Z, binary_normalize. simpl Z.to_pos.
  assert (Hd : 0 < digits n <= 53).
  { split; [unfold digits; lia|].
    pose proof (digits_bounds n) as [H1 _].
    assert (digits n - 1 < 53); [|lia].
    apply (Z.pow_lt_mono_r_iff 2); lia. }
  apply (binary_round_exact true n 0 n 0); rewrite ?Z.pow_0_r; lia.
Qed.

Lemma of_Z_two : of_Z 2 = S754_finite false 4503599627370496 (-51).
Proof. reflexivity. Qed.

Lemma div_eucl_exact a b : 0 < b -> Z.div_eucl (a * b) b = (a, 0).
Proof.
  intros Hb. pose proof (Z.div_mul a b ltac:(lia)) as Hq.
  pose proof (Z.mod_mul a b ltac:(lia)) as Hr.
  unfold Z.div, Z.modulo in Hq, Hr.
  destruct (Z.div_eucl (a * b) b) as [q r]. simpl in Hq, Hr. congruence.
Qed.

(** Halving a number in normal form lowers its exponent by one. *)
Lemma div_two s m e :
  digits m = 53 -> -1072 <= e <= 972 ->
  Double.div (S754_finite s m e) (of_Z 2) = S754_finite s m (e - 1).
Proof.
  intros Hm He. rewrite of_Z_two. unfold Double.div, SFdiv, SFdiv_core_binary.
  change (Zdigits2 (Zpos m)) with (digits m). rewrite Hm.
  change (Zdigits2 4503599627370496) with 53.
  rewrite fexp_normal by (unfold prec, emax; lia).
  replace (Z.min (53 + e - (53 + -51) - prec) (e - -51)) with (e - 2)
    by (unfold prec; lia).
  replace (e - -51 - (e - 2)) with 53 by lia.
  cbv iota.
  replace (Z.shiftl (Zpos m) 53) with (Zpos m~0 * 4503599627370496)
    by (rewrite Z.shiftl_mul_pow2 by lia; change (2 ^ 53) with 9007199254740992; lia).
  rewrite div_eucl_exact by lia.
  change (new_location 4503599627370496 0) with loc_Exact.
  rewrite xorb_false_r.
  rewrite (binary_round_aux_exact s (m~0) (e - 2) m).
  - f_equal. rewrite (digits_shift (m~0) m 1); lia.
  - rewrite (digits_shift (m~0) m 1); lia.
  - rewrite (digits_shift (m~0) m 1); try lia.
    replace (digits m + 1 - 53) with 1 by lia. lia.
  - rewrite (digits_shift (m~0) m 1); lia.
Qed.

Lemma shl_align_fst m e ez :
  ez <= e -> Zpos (fst (shl_align m e ez)) = Zpos m * 2 ^ (e - ez).
Proof.
  intros H. unfold shl_align. destruct (ez - e) as [|d|d] eqn:E; simpl fst.
  - replace (e - ez) with 0 by lia. lia.
  - lia.
  - rewrite iter_xO. f_equal. f_equal. lia.
Qed.

(** Truncation of a number of halves. *)
Lemma trunc_normal_halves n :
  digits n <= 53 -> trunc (normal false n (-1)) = Zpos n / 2.
Proof.
  intros Hn. assert (0 < digits n) by (unfold digits; lia).
  assert (Hp : 0 < 2 ^ (53 - digits n)) by (apply Z.pow_pos_nonneg; lia).
  unfold normal, trunc, cond_Zopp.
  rewrite Z2Pos.id by nia.
  rewrite <- Z.shiftr_opp_r, Z.shiftr_div_pow2 by lia.
  replace (- (-1 - (53 - digits n))) with (1 + (53 - digits n)) by lia.
  rewrite Z.pow_add_r by lia.
  rewrite Z.div_mul_cancel_r by lia. reflexivity.
Qed.

(** The sum [v + a / 2] of a position and half a deficit is computed
    without rounding. *)
Lemma add_half v a :
  0 <= v -> 0 < a -> 2 * v + a < 2 ^ 53 ->
  Double.add (of_Z v) (Double.div (fabs (of_Z (- a))) (of_Z 2))
  = normal false (Z.to_pos (2 * v + a)) (-1).
Proof.
  intros Hv Ha Hsum53.
  assert (Hp53 : 2 ^ 53 = 9007199254740992) by reflexivity.
  assert (Hda : 0 < digits (Z.to_pos a) <= 53).
  { split; [unfold digits; lia|].
    pose proof (digits_bounds (Z.to_pos a)) as [H1 _].
    rewrite Z2Pos.id in H1 by lia.
    assert (digits (Z.to_pos a) - 1 < 53); [|lia].
    apply (Z.pow_lt_mono_r_iff 2); lia. }
  rewrite (of_Z_neg (- a)) by lia. rewrite Z.opp_involutive.
  change (fabs (normal true (Z.to_pos a) 0)) with (normal false (Z.to_pos a) 0).
  unfold normal at 1.
  rewrite div_two by (try apply normal_mantissa_digits; lia).
  set (ma := Z.to_pos (Zpos (Z.to_pos a) * 2 ^ (53 - digits (Z.to_pos a)))).
  set (ea := 0 - (53 - digits (Z.to_pos a)) - 1).
  assert (Hma : Zpos ma = a * 2 ^ (53 - digits (Z.to_pos a))).
  { unfold ma. 
    assert (0 < 2 ^ (53 - digits (Z.to_pos a))) by (apply Z.pow_pos_nonneg; lia).
    rewrite Z2Pos.id by nia. rewrite Z2Pos.id by lia. reflexivity. }
  destruct (Z.eq_dec v 0) as [-> | Hv0].
  - change (of_Z 0) with (S754_zero false). simpl Double.add.
    unfold normal. replace (Z.to_pos (2 * 0 + a)) with (Z.to_pos a) by (f_equal; lia).
    fold ma. f_equal. unfold ea. lia.
  - assert (Hdv : 0 < digits (Z.to_pos v) <= 53).
    { split; [unfold digits; lia|].
      pose proof (digits_bounds (Z.to_pos v)) as [H1 _].
      rewrite Z2Pos.id in H1 by lia.
      assert (digits (Z.to_pos v) - 1 < 53); [|lia].
      apply (Z.pow_lt_mono_r_iff 2); lia. }
    rewrite of_Z_pos by lia. unfold normal at 1.
    set (mv := Z.to_pos (Zpos (Z.to_pos v) * 2 ^ (53 - digits (Z.to_pos v)))).
    set (ev := 0 - (53 - digits (Z.to_pos v))).
    assert (Hmv : Zpos mv = v * 2 ^ (53 - digits (Z.to_pos v))).
    { unfold mv. 
      assert (0 < 2 ^ (53 - digits (Z.to_pos v))) by (apply Z.pow_pos_nonneg; lia).
      rewrite Z2Pos.id by nia. rewrite Z2Pos.id by lia. reflexivity. }
    unfold Double.add, SFadd. set (ez := Z.min ev ea).
    unfold cond_Zopp.
    rewrite !shl_align_fst by (unfold ez; lia).
    assert (Hsum : Zpos mv * 2 ^ (ev - ez) + Zpos ma * 2 ^ (ea - ez)
                   = Zpos (Z.to_pos (2 * v + a)) * 2 ^ (-1 - ez)).
    { rewrite Hmv, Hma, <- !Z.mul_assoc, <- !Z.pow_add_r by (unfold ez, ev, ea; lia).
      rewrite Z2Pos.id by lia.
      replace (53 - digits (Z.to_pos v) + (ev - ez)) with (1 + (-1 - ez))
        by (unfold ev; lia).
      replace (53 - digits (Z.to_pos a) + (ea - ez)) with (-1 - ez) by (unfold ea; lia).
      rewrite Z.pow_add_r by (unfold ez, ev, ea; lia). lia. }
    rewrite Hsum.
    assert (Hpz : 0 < 2 ^ (-1 - ez)) by (apply Z.pow_pos_nonneg; unfold ez, ea; lia).
    destruct (Zpos (Z.to_pos (2 * v + a)) * 2 ^ (-1 - ez)) as [|M|M] eqn:EM; try nia.
    unfold binary_normalize.
    assert (Hdn : 0 < digits (Z.to_pos (2 * v + a)) <= 53).
    { split; [unfold digits; lia|].
      pose proof (digits_bounds (Z.to_pos (2 * v + a))) as [H1 _].
      rewrite Z2Pos.id in H1 by lia.
      assert (digits (Z.to_pos (2 * v + a)) - 1 < 53); [|lia].
      apply (Z.pow_lt_mono_r_iff 2); lia. }
    rewrite (binary_round_exact false M ez (Z.to_pos (2 * v + a)) (-1 - ez)).
    + f_equal. lia.
    + unfold ez, ea. lia.
    + symmetry. exact EM.
    + lia.
    + lia.
Qed.

(** The skipped-ahead position, for a position that is not negative:
    as long as [2 * v + |d|] stays below [2 ^ 53] the sum is exact, and
    its fractional part is dropped. *)
Lemma skip_ahead_exact_wide v d :
  0 <= v -> d < 0 -> 2 * v + Z.abs d < 2 ^ 53 ->
  skip_ahead v d = v + Z.abs d / 2.
Proof.
  intros Hv Hd Hsum.
  assert (Hp53 : 2 ^ 53 = 9007199254740992) by reflexivity.
  unfold skip_ahead. replace d with (- (- d)) at 1 by lia.
  rewrite add_half by lia.
  assert (Hdn : 0 < digits (Z.to_pos (2 * v + - d)) <= 53).
  { split; [unfold digits; lia|].
    pose proof (digits_bounds (Z.to_pos (2 * v + - d))) as [H1 _].
    rewrite Z2Pos.id in H1 by lia.
    assert (digits (Z.to_pos (2 * v + - d)) - 1 < 53); [|lia].
    apply (Z.pow_lt_mono_r_iff 2); lia. }
  assert (Ht : trunc (normal false (Z.to_pos (2 * v + - d)) (-1))
               = v + Z.abs d / 2).
  { rewrite trunc_normal_halves by lia. rewrite Z2Pos.id by lia.
    replace (2 * v + - d) with (Z.abs d + v * 2) by lia.
    rewrite Z.div_add by lia. lia. }
  rewrite to_int64_trunc; [assumption | reflexivity |].
  rewrite Ht. pose proof (Z.div_pos (Z.abs d) 2 ltac:(lia) ltac:(lia)).
  assert (Z.abs d / 2 <= Z.abs d) by (apply Z.div_le_upper_bound; lia).
  unfold Int64.in_range, Int64.min_signed, Int64.max_signed.
  change (2 ^ 63) with 9223372036854775808. lia.
Qed.

Lemma skip_ahead_exact v d :
  0 <= v < 2 ^ 51 -> - 2 ^ 51 < d < 0 ->
  skip_ahead v d = v + Z.abs d / 2.
Proof.
  intros Hv Hd. apply skip_ahead_exact_wide; lia.
Qed.

(** ** The skip ahead *)

(** C5.  In a pass that renders a stream with both audio and video and
    finds [video_frame_diff < -10], [video_position] grows by exactly
    [floor(|video_frame_diff| / 2)] and [sleep_time] is set to 0, so that
    the pass does not sleep at all: 10 frames for a difference of -20, 7
    for a difference of -15.  The sum is taken in [double], hence the
    range: a position that is not negative, and [2 * video_position +
    |video_frame_diff|] below [2 ^ 53]. *)
Theorem skip_ahead_adds_half_deficit info env p f p1 g :
  getFrame info (reader_GetFrame env) p = (Returned f, p1, g) ->
  paused_or_ended info (set_frame p1 f) = false ->
  both_streams info = true ->
  frame_diff env p1 < -10 ->
  0 <= video_position p1 ->
  2 * video_position p1 + Z.abs (frame_diff env p1) < 2 ^ 53 ->
  exists p' evs,
    run_iteration info env p = Continue p' evs
    /\ video_position p'
       = video_position p1 + Z.abs (frame_diff env p1) / 2
    /\ resulting_sleep info env (set_frame p1 f) = 0
    /\ existsb is_sleep evs = false
    /\ (frame_diff env p1 = -20 ->
        video_position p' = video_position p1 + 10)
    /\ (frame_diff env p1 = -15 ->
        video_position p' = video_position p1 + 7).
Proof.
  intros Hg Hp Hb Hd Hv Hr.
  set (q := set_frame p1 f).
  assert (Hdq : frame_diff env q = frame_diff env p1) by reflexivity.
  assert (Hra : render_and_adjust info env q
                = (set_video_position
                     (set_audio_position
                        (set_last_video_position q (video_position q))
                        (getCurrentFramePosition env))
                     (skip_ahead (video_position q) (frame_diff env q)),
                   0,
                   snd (render_and_adjust info env q))).
  { rewrite render_and_adjust_both by assumption. cbv zeta.
    rewrite adjust_drift_cases, Hb, !andb_true_r.
    replace (0 <? frame_diff env q) with false
      by (symmetry; apply Z.ltb_ge; lia).
    replace (frame_diff env q <? -10) with true
      by (symmetry; apply Z.ltb_lt; lia).
    reflexivity. }
  assert (Hs : resulting_sleep info env q = 0)
    by (unfold resulting_sleep; rewrite Hra; reflexivity).
  assert (Hskip : skip_ahead (video_position q) (frame_diff env q)
                  = video_position p1 + Z.abs (frame_diff env p1) / 2).
  { rewrite Hdq. apply skip_ahead_exact_wide; [assumption | lia | assumption]. }
  pose proof (getFrame_no_sleep info (reader_GetFrame env) p) as Hgs.
  rewrite Hg in Hgs. simpl in Hgs.
  pose proof (render_and_adjust_no_sleep info env q) as Hrs.
  rewrite (run_iteration_returned _ _ _ _ _ _ Hg). fold q.
  unfold after_getFrame. fold q in Hp. rewrite Hp. unfold render_and_sleep.
  rewrite Hra. cbn [fst snd].
  eexists. eexists. split; [reflexivity|].
  split; [exact Hskip|]. split; [exact Hs|]. split.
  - rewrite !existsb_app, Hgs, Hrs. reflexivity.
  - cbn [video_position set_video_position]. rewrite Hskip.
    split; intros ->; reflexivity.
Qed.

Lemma skip_ahead_adds_half_deficit_witness :
  exists p' evs,
    run_iteration info_24fps (env_bounded 115)
      (set_video_position showing_100 99)
    = Continue p' evs
    /\ video_position p' = 100 + 7
    /\ existsb is_sleep evs = false.
Proof.
  destruct (skip_ahead_adds_half_deficit info_24fps (env_bounded 115)
              (set_video_position showing_100 99)
              (Some {| frame_id := 100; number := 100 |})
              showing_100
              [EvSetCurrentFramePosition 100; EvReaderGetFrame 100])
    as (p' & evs & H1 & H2 & _ & H4 & _).
  - reflexivity.
  - reflexivity.
  - reflexivity.
  - vm_compute. reflexivity.
  - simpl. lia.
  - vm_compute. reflexivity.
  - exists p', evs. split; [exact H1|]. split; [exact H2 | exact H4].
Defined.


(* ================================================================= *)
(** * Further properties of the player *)

(** ** [getFrame] on its own *)

Lemma advance_speed info p : speed (advance info p) = speed p.
Proof. unfold advance. destruct (_ && _); reflexivity. Qed.

Lemma advance_on_timeline info p :
  video_position (advance info p) = video_position p
  \/ on_timeline info (video_position (advance info p)).
Proof.
  destruct (advance_cases info p) as [H|[H Hb]]; rewrite H.
  - now left.
  - right. exact Hb.
Qed.

(** [getFrame] writes no member but [video_position] (the frame it
    answers is stored by the caller), and the position it leaves is the
    one it found or lies within [[1, video_length]], whatever [speed] is
    and whatever the reader does: a position on the timeline stays on
    it. *)
Theorem getFrame_writes_position_only info GetFrame p :
  let p' := snd (fst (getFrame info GetFrame p)) in
  speed p' = speed p
  /\ last_video_position p' = last_video_position p
  /\ audio_position p' = audio_position p
  /\ frame p' = frame p
  /\ max_sleep_ms p' = max_sleep_ms p
  /\ (video_position p' = video_position p
      \/ on_timeline info (video_position p'))
  /\ (on_timeline info (video_position p) ->
      on_timeline info (video_position p')).
Proof.
  intros p'. subst p'. rewrite getFrame_player.
  rewrite advance_speed, advance_last, advance_audio, advance_frame,
    advance_max_sleep.
  repeat split; try apply advance_on_timeline.
  - destruct (advance_on_timeline info p) as [E|E];
      [rewrite E; apply H | apply E].
  - destruct (advance_on_timeline info p) as [E|E];
      [rewrite E; apply H | apply E].
Qed.

Lemma getFrame_writes_position_only_witness :
  on_timeline info_24fps
    (video_position
       (snd (fst (getFrame info_24fps closed_reader
                    (set_speed at_the_end 5))))).
Proof.
  apply (getFrame_writes_position_only info_24fps closed_reader
           (set_speed at_the_end 5)).
  unfold on_timeline. simpl. lia.
Defined.

(** [getFrame] asks the reader at most once, and then for the position
    it leaves the player at, after telling the cache thread that same
    position; it asks nothing only when it answers the frame the player
    holds; a player that holds no frame always asks, paused or not. *)
Theorem getFrame_asks_for_current_position info GetFrame p :
  let r := fst (fst (getFrame info GetFrame p)) in
  let pos := video_position (snd (fst (getFrame info GetFrame p))) in
  let evs := snd (getFrame info GetFrame p) in
  ((evs = [] /\ r = Returned (frame p))
   \/ evs = [EvSetCurrentFramePosition pos; EvReaderGetFrame pos])
  /\ (frame p = None ->
      evs = [EvSetCurrentFramePosition pos; EvReaderGetFrame pos]).
Proof.
  intros r pos evs. subst r pos evs. rewrite getFrame_player.
  destruct (cached (advance info p)) eqn:E.
  - rewrite getFrame_hit by assumption. simpl. split; [now left|].
    intros Hn. apply cached_spec in E. destruct E as (f & Hf & _).
    rewrite advance_frame in Hf. congruence.
  - rewrite getFrame_miss by assumption. split; [now right | reflexivity].
Qed.

Lemma getFrame_asks_for_current_position_witness :
  snd (getFrame info_24fps closed_reader (set_frame paused_on_7 None))
  = [EvSetCurrentFramePosition 7; EvReaderGetFrame 7].
Proof.
  apply (proj2 (getFrame_asks_for_current_position info_24fps closed_reader
                  (set_frame paused_on_7 None))).
  reflexivity.
Defined.

(** ** One pass through the body *)

(** What rendering and drift adjustment leave of the player. *)
Lemma render_and_adjust_members info env p :
  let p' := fst (fst (render_and_adjust info env p)) in
  speed p' = speed p
  /\ frame p' = frame p
  /\ max_sleep_ms p' = max_sleep_ms p
  /\ last_video_position p' = video_position p
  /\ audio_position p'
     = (if both_streams info then getCurrentFramePosition env
        else audio_position p).
Proof.
  intros p'. subst p'. destruct (both_streams info) eqn:Hb.
  - rewrite render_and_adjust_both by assumption. cbv zeta.
    rewrite adjust_drift_cases, Hb, !andb_true_r.
    destruct (0 <? _); [repeat split|].
    destruct (_ <? -10); repeat split.
  - rewrite render_and_adjust_single by assumption. repeat split.
Qed.

(** The calls of rendering and drift adjustment: the frame goes to the
    video thread first; then the audio thread is called; the debug
    record comes last and carries the position and the [sleep_time] as
    they are before any adjustment. *)
Lemma render_and_adjust_events info env p :
  snd (render_and_adjust info env p)
  = [EvRender (frame p)] ++ audio_calls info p ++ [debug_record info env p].
Proof.
  unfold audio_calls, debug_record. destruct (both_streams info) eqn:Hb.
  - rewrite render_and_adjust_both by assumption. reflexivity.
  - rewrite render_and_adjust_single by assumption. reflexivity.
Qed.

(** A player held at a bound keeps showing its frame: when the step by
    [speed] would leave [[1, video_length]], the player is not paused and
    holds the frame of its position, which it displayed last, the pass
    asks the reader for nothing, hands the held frame to the video thread
    again, and neither pauses nor changes [speed]. *)
Theorem held_at_bound_renders_again info env p f :
  speed p <> 0 ->
  Int64.in_range (video_position p + speed p) ->
  ~ on_timeline info (video_position p + speed p) ->
  video_position p <= video_length info ->
  frame p = Some f -> number f = video_position p ->
  last_video_position p = video_position p ->
  exists p' evs,
    run_iteration info env p = Continue p' (EvRender (Some f) :: evs)
    /\ existsb is_fetch evs = false
    /\ existsb is_render evs = false
    /\ speed p' = speed p
    /\ frame p' = Some f
    /\ last_video_position p' = video_position p.
Proof.
  intros Hs Hr Ho Hl Hf Hn Hlast.
  pose proof (advance_out_of_bounds info p Ho Hr) as Ha.
  assert (Hc : cached (advance info p) = true).
  { rewrite Ha. apply cached_spec. exists f. auto. }
  pose proof (getFrame_hit info (reader_GetFrame env) p Hc) as Hg.
  rewrite Ha in Hg.
  rewrite (run_iteration_returned _ _ _ _ _ _ Hg).
  replace (set_frame p (frame p)) with p by (destruct p; reflexivity).
  unfold after_getFrame.
  assert (Hp : paused_or_ended info p = false).
  { unfold paused_or_ended.
    replace (speed p =? 0) with false by (symmetry; apply Z.eqb_neq; lia).
    simpl. apply Z.ltb_ge. lia. }
  rewrite Hp. unfold render_and_sleep.
  pose proof (render_and_adjust_members info env p) as (M1 & M2 & _ & M4 & _).
  pose proof (render_and_adjust_events info env p) as Hev.
  destruct (render_and_adjust info env p) as [[p3 s] evs3].
  simpl in M1, M2, M4, Hev. subst evs3. rewrite Hf.
  eexists. eexists. split; [reflexivity|].
  assert (Hfs : forall s q, existsb is_fetch (final_sleep s q) = false
                            /\ existsb is_render (final_sleep s q) = false).
  { intros s' q. unfold final_sleep. destruct (_ && _); split; reflexivity. }
  destruct (Hfs s p3) as [F1 F2]. cbn [fst snd].
  repeat split; try congruence.
  - rewrite !existsb_app, F1. unfold audio_calls. simpl.
    destruct (both_streams info); [destruct (speed p =? 1)|]; reflexivity.
  - rewrite !existsb_app, F2. unfold audio_calls. simpl.
    destruct (both_streams info); [destruct (speed p =? 1)|]; reflexivity.
Qed.

Lemma held_at_bound_renders_again_witness :
  exists p' evs,
    run_iteration info_24fps (env_playing 100) at_the_end
    = Continue p' (EvRender (frame at_the_end) :: evs)
    /\ existsb is_fetch evs = false
    /\ existsb is_render evs = false
    /\ speed p' = 1
    /\ frame p' = frame at_the_end
    /\ last_video_position p' = 100.
Proof.
  apply (held_at_bound_renders_again info_24fps (env_playing 100) at_the_end
           {| frame_id := 100; number := 100 |});
    try reflexivity; unfold Int64.in_range, on_timeline; simpl;
    try discriminate; try lia.
  unfold Int64.min_signed, Int64.max_signed. lia.
Defined.

Lemma getFrame_events_cases info GetFrame p :
  let pos := video_position (advance info p) in
  snd (getFrame info GetFrame p) = []
  \/ snd (getFrame info GetFrame p)
     = [EvSetCurrentFramePosition pos; EvReaderGetFrame pos].
Proof.
  destruct (cached (advance info p)) eqn:E.
  - left. rewrite getFrame_hit by assumption. reflexivity.
  - right. apply getFrame_miss. assumption.
Qed.

(** The three ways a pass can go, with the calls it makes. *)
Lemma run_iteration_shape info env p :
  let p1 := advance info p in
  let g := snd (getFrame info (reader_GetFrame env) p) in
  (exists e, run_iteration info env p = Uncaught e p1 g)
  \/ (exists f,
        paused_or_ended info (set_frame p1 f) = true
        /\ run_iteration info env p
           = Continue (set_speed (set_frame p1 f) 0)
                      (g ++ [EvSleepFor (frame_duration info)]))
  \/ (exists f,
        paused_or_ended info (set_frame p1 f) = false
        /\ let q := set_frame p1 f in
           let r := render_and_adjust info env q in
           run_iteration info env p
           = Continue (fst (fst r))
               (g ++ ([EvRender f] ++ audio_calls info q
                      ++ [debug_record info env q])
                  ++ final_sleep (snd (fst r)) (fst (fst r)))).
Proof.
  intros p1 g.
  destruct (run_iteration_cases info env p) as [H|[H|[f [Hp H]]]];
    [left; exact H | right; left; exact H |].
  right. right. exists f. split; [assumption|].
  cbv zeta in H |- *. rewrite render_and_adjust_events in H. exact H.
Qed.

Ltac split_in H :=
  repeat match type of H with
         | In _ (_ ++ _) => apply in_app_or in H; destruct H as [H|H]
         | In _ (_ :: _) => destruct H as [H|H]
         | In _ [] => destruct H
         | _ \/ _ => destruct H as [H|H]
         | False => destruct H
         end.

(** [last_video_position] follows the display: a pass either hands
    nothing to the video thread and leaves [last_video_position] alone,
    or hands over the frame the player holds at the end of the pass
    (possibly empty) and records the position [getFrame] left, whatever
    the drift adjustment does to [video_position] afterwards. *)
Theorem last_position_follows_render info env p :
  let it := run_iteration info env p in
  (existsb is_render (events_of it) = false
   /\ last_video_position (player_after it) = last_video_position p)
  \/ (In (EvRender (frame (player_after it))) (events_of it)
      /\ last_video_position (player_after it)
         = video_position (advance info p)).
Proof.
  intros it. subst it.
  destruct (getFrame_events_cases info (reader_GetFrame env) p) as [Hg|Hg];
  destruct (run_iteration_shape info env p) as [[e H]|[[f [_ H]]|[f [_ H]]]];
    cbv zeta in H; rewrite H; simpl player_after; simpl events_of;
    rewrite Hg;
    try (left; split; [reflexivity | apply advance_last]).
  - right.
    pose proof (render_and_adjust_members info env
                  (set_frame (advance info p) f)) as (_ & M2 & _ & M4 & _).
    cbv zeta in M2, M4. rewrite M2, M4. split; [|reflexivity].
    simpl. left. reflexivity.
  - right.
    pose proof (render_and_adjust_members info env
                  (set_frame (advance info p) f)) as (_ & M2 & _ & M4 & _).
    cbv zeta in M2, M4. rewrite M2, M4. split; [|reflexivity].
    simpl. right. right. left. reflexivity.
Qed.

(** The audio thread is called only in a pass that renders a stream with
    both audio and video: without both streams no pass calls it or
    writes [audio_position]; at normal speed ([speed = 1]) no pass seeks
    it; and a seek, when there is one, goes to the position [getFrame]
    left. *)
Theorem audio_is_sought_at_rendered_position info env p :
  let it := run_iteration info env p in
  (both_streams info = false ->
   existsb is_audio_call (events_of it) = false
   /\ audio_position (player_after it) = audio_position p)
  /\ (forall pos, In (EvAudioSeek pos) (events_of it) ->
        both_streams info = true /\ speed p <> 1
        /\ pos = video_position (advance info p)).
Proof.
  intros it. subst it.
  assert (Hfin : forall s q, final_sleep s q = [EvSleepMs s]
                             \/ final_sleep s q = []).
  { intros s q. unfold final_sleep. destruct (_ && _); auto. }
  split.
  - intros Hb.
    destruct (getFrame_events_cases info (reader_GetFrame env) p) as [Hg|Hg];
    destruct (run_iteration_shape info env p) as [[e H]|[[f [_ H]]|[f [_ H]]]];
      cbv zeta in H; rewrite H; simpl player_after; simpl events_of;
      rewrite Hg;
      try (split; [reflexivity | apply advance_audio]).
    all: pose proof (render_and_adjust_members info env
                       (set_frame (advance info p) f)) as (_ & _ & _ & _ & M5);
      cbv zeta in M5; rewrite M5, Hb; unfold audio_calls; rewrite Hb.
    all: destruct (Hfin (snd (fst (render_and_adjust info env
                                     (set_frame (advance info p) f))))
                        (fst (fst (render_and_adjust info env
                                     (set_frame (advance info p) f)))))
        as [Hs|Hs]; rewrite Hs.
    all: split; [reflexivity | apply advance_audio].
  - intros pos Hin.
    destruct (getFrame_events_cases info (reader_GetFrame env) p) as [Hg|Hg];
    destruct (run_iteration_shape info env p) as [[e H]|[[f [_ H]]|[f [_ H]]]];
      cbv zeta in H; rewrite H in Hin; simpl events_of in Hin;
      rewrite Hg in Hin; split_in Hin; try discriminate.
    all: try (match type of Hin with
              | In _ (final_sleep ?s ?q) =>
                  destruct (Hfin s q) as [Hs|Hs]; rewrite Hs in Hin;
                  split_in Hin; discriminate
              end).
    all: unfold audio_calls in Hin; destruct (both_streams info);
      [|destruct Hin]; simpl speed in Hin; simpl video_position in Hin;
      rewrite advance_speed in Hin;
      destruct (speed p =? 1) eqn:E; split_in Hin; try discriminate;
      injection Hin as <-; apply Z.eqb_neq in E; auto.
Qed.

Lemma audio_is_sought_at_rendered_position_witness :
  existsb is_audio_call
    (events_of (run_iteration info_video_only (env_playing 50) playing_at_5))
  = false
  /\ (both_streams info_24fps = true /\ speed scrubbed_to_40 <> 1
      /\ 40 = video_position (advance info_24fps scrubbed_to_40)).
Proof.
  pose proof (audio_is_sought_at_rendered_position info_video_only
                (env_playing 50) playing_at_5) as [H1 _].
  pose proof (audio_is_sought_at_rendered_position info_24fps
                (env_playing 40) scrubbed_to_40) as [_ H2].
  split.
  - apply H1. reflexivity.
  - apply H2. vm_compute. auto 10.
Defined.

(** After a failure of the reader that [getFrame] absorbs, the pass goes
    on as after a fetch: unless the pausing code applies, the empty
    pointer is handed to the video thread and stored as the player's
    frame, and [last_video_position] records the position. *)
Theorem soft_failure_renders_empty_frame info env p e :
  cached (advance info p) = false ->
  reader_GetFrame env (video_position (advance info p)) = Throws e ->
  handled e = true ->
  paused_or_ended info (set_frame (advance info p) None) = false ->
  exists p' evs,
    run_iteration info env p = Continue p' evs
    /\ In (EvRender None) evs
    /\ frame p' = None
    /\ last_video_position p' = video_position (advance info p).
Proof.
  intros Hc He Hh Hp.
  assert (Hg : getFrame info (reader_GetFrame env) p
               = (Returned None, advance info p,
                  [EvSetCurrentFramePosition (video_position (advance info p));
                   EvReaderGetFrame (video_position (advance info p))])).
  { unfold getFrame. rewrite Hc, He. destruct e; try discriminate; reflexivity. }
  rewrite (run_iteration_returned _ _ _ _ _ _ Hg).
  unfold after_getFrame. rewrite Hp. unfold render_and_sleep.
  pose proof (render_and_adjust_members info env
                (set_frame (advance info p) None)) as (_ & M2 & _ & M4 & _).
  pose proof (render_and_adjust_events info env
                (set_frame (advance info p) None)) as Hev.
  destruct (render_and_adjust info env _) as [[p3 s] evs3].
  simpl in M2, M4, Hev. subst evs3.
  eexists. eexists. split; [reflexivity|]. cbn [fst snd].
  split; [|split; assumption].
  simpl. right. right. left. reflexivity.
Qed.

Lemma soft_failure_renders_empty_frame_witness :
  exists p' evs,
    run_iteration info_24fps env_closed playing_at_5 = Continue p' evs
    /\ In (EvRender None) evs
    /\ frame p' = None
    /\ last_video_position p'
       = video_position (advance info_24fps playing_at_5).
Proof.
  apply (soft_failure_renders_empty_frame info_24fps env_closed playing_at_5
           ReaderClosed); reflexivity.
Defined.

(** One pass of a player that is paused on the position it displayed
    last: nothing is rendered, sampled or adjusted, and no member but
    [frame] (and [speed], set to 0 again) is written. *)
Lemma paused_pass info env p :
  speed p = 0 ->
  video_position p = last_video_position p ->
  Int64.in_range (video_position p) ->
  let it := run_iteration info env p in
  existsb is_render_or_drift (events_of it) = false
  /\ speed (player_after it) = 0
  /\ video_position (player_after it) = video_position p
  /\ last_video_position (player_after it) = last_video_position p
  /\ audio_position (player_after it) = audio_position p
  /\ max_sleep_ms (player_after it) = max_sleep_ms p.
Proof.
  intros Hs Hv Hr it. subst it.
  pose proof (advance_paused info p Hs Hr) as Ha.
  pose proof (getFrame_no_render info (reader_GetFrame env) p) as Hn.
  destruct (run_iteration_shape info env p) as [[e H]|[[f [_ H]]|[f [Hp H]]]];
    cbv zeta in H; try rewrite Ha in *.
  - rewrite H. simpl. repeat split; assumption.
  - rewrite H. simpl. rewrite existsb_app, Hn. repeat split.
  - exfalso. unfold paused_or_ended in Hp. simpl in Hp.
    rewrite Hs, Hv, !Z.eqb_refl in Hp. simpl in Hp. discriminate.
Qed.

(** Moving a paused player shows the new frame once: with [speed = 0]
    and a position on the timeline other than the one displayed last,
    the pass asks the reader for the frame, hands it to the video thread
    and records the position; unless the drift adjustment skips ahead,
    the position stays, and the pass after it, whatever the collaborators
    answer, renders nothing and moves nothing. *)
Theorem paused_seek_renders_once info env p :
  speed p = 0 ->
  video_position p <> last_video_position p ->
  Int64.in_range (video_position p) ->
  video_position p <= video_length info ->
  (forall e, reader_GetFrame env (video_position p) = Throws e ->
             handled e = true) ->
  (both_streams info = false \/ -10 <= frame_diff env p) ->
  exists p1 evs1,
    run_iteration info env p = Continue p1 evs1
    /\ In (EvReaderGetFrame (video_position p)) evs1
    /\ In (EvRender (frame p1)) evs1
    /\ speed p1 = 0
    /\ video_position p1 = video_position p
    /\ last_video_position p1 = video_position p
    /\ forall env2,
         let it := run_iteration info env2 p1 in
         existsb is_render_or_drift (events_of it) = false
         /\ video_position (player_after it) = video_position p
         /\ last_video_position (player_after it) = video_position p.
Proof.
  intros Hs Hv Hr Hl Hh Hd.
  pose proof (advance_paused info p Hs Hr) as Ha.
  assert (Hc : cached (advance info p) = false).
  { rewrite Ha. unfold cached. destruct (frame p); [|reflexivity].
    replace (video_position p =? last_video_position p) with false
      by (symmetry; apply Z.eqb_neq; assumption).
    apply andb_false_r. }
  assert (Hg : exists f, getFrame info (reader_GetFrame env) p
                         = (Returned f, p,
                            [EvSetCurrentFramePosition (video_position p);
                             EvReaderGetFrame (video_position p)])).
  { unfold getFrame. rewrite Hc, Ha.
    destruct (reader_GetFrame env (video_position p)) as [f|e] eqn:E;
      [eauto|].
    specialize (Hh e eq_refl). destruct e; try discriminate; eauto. }
  destruct Hg as [f Hg].
  rewrite (run_iteration_returned _ _ _ _ _ _ Hg).
  unfold after_getFrame.
  assert (Hp : paused_or_ended info (set_frame p f) = false).
  { unfold paused_or_ended. simpl.
    replace (video_position p =? last_video_position p) with false
      by (symmetry; apply Z.eqb_neq; assumption).
    rewrite andb_false_r. simpl. apply Z.ltb_ge. assumption. }
  rewrite Hp. unfold render_and_sleep.
  pose proof (render_and_adjust_members info env (set_frame p f))
    as (M1 & M2 & _ & M4 & _).
  pose proof (render_and_adjust_events info env (set_frame p f)) as Hev.
  pose proof (render_and_adjust_position info env (set_frame p f)) as Hpos.
  destruct (render_and_adjust info env (set_frame p f)) as [[p3 s] evs3].
  simpl in M1, M2, M4, Hev, Hpos. subst evs3.
  assert (Hv3 : video_position p3 = video_position p).
  { destruct Hpos as [E|(Hb & Hlt & _)]; [assumption|].
    unfold frame_diff in Hlt. simpl in Hlt. fold (frame_diff env p) in Hlt.
    destruct Hd as [Hd|Hd]; [congruence | lia]. }
  eexists. eexists. split; [reflexivity|]. cbn [fst snd].
  split; [simpl; auto|]. split; [rewrite M2; simpl; auto|].
  split; [congruence|]. split; [assumption|]. split; [assumption|].
  intros env2.
  assert (Hr3 : Int64.in_range (video_position p3)) by (rewrite Hv3; assumption).
  pose proof (paused_pass info env2 p3 ltac:(congruence) ltac:(congruence) Hr3)
    as (P1 & _ & P3 & P4 & _).
  cbv zeta in *. rewrite P3, P4. auto.
Qed.

Lemma paused_seek_renders_once_witness :
  exists p1 evs1,
    run_iteration info_24fps (env_playing 40) scrubbed_to_40
    = Continue p1 evs1
    /\ In (EvReaderGetFrame 40) evs1
    /\ In (EvRender (frame p1)) evs1
    /\ speed p1 = 0
    /\ video_position p1 = 40
    /\ last_video_position p1 = 40
    /\ forall env2,
         let it := run_iteration info_24fps env2 p1 in
         existsb is_render_or_drift (events_of it) = false
         /\ video_position (player_after it) = 40
         /\ last_video_position (player_after it) = 40.
Proof.
  apply (paused_seek_renders_once info_24fps (env_playing 40) scrubbed_to_40).
  - reflexivity.
  - simpl. lia.
  - unfold Int64.in_range, Int64.min_signed, Int64.max_signed. simpl. lia.
  - simpl. lia.
  - intros e H. discriminate H.
  - right. vm_compute. discriminate.
Defined.

(** ** The drift adjustment *)

(** No correction in the dead band: without both streams, or with the
    video level with the audio or behind it by at most 10 frames
    ([-10 <= video_frame_diff <= 0], the bound -10 included), the
    adjustment leaves [video_position] and [sleep_time] as they are. *)
Theorem no_correction_in_dead_band info env p :
  both_streams info = false \/ -10 <= frame_diff env p <= 0 ->
  video_position (fst (fst (render_and_adjust info env p)))
  = video_position p
  /\ resulting_sleep info env p = base_sleep info env.
Proof.
  intros H. unfold resulting_sleep. destruct (both_streams info) eqn:Hb.
  - destruct H as [H|H]; [discriminate|].
    rewrite render_and_adjust_both by assumption. cbv zeta.
    rewrite adjust_drift_cases, Hb, !andb_true_r.
    replace (0 <? frame_diff env p) with false
      by (symmetry; apply Z.ltb_ge; lia).
    replace (frame_diff env p <? -10) with false
      by (symmetry; apply Z.ltb_ge; lia).
    split; reflexivity.
  - rewrite render_and_adjust_single by assumption. split; reflexivity.
Qed.

Lemma no_correction_in_dead_band_witness :
  video_position
    (fst (fst (render_and_adjust info_24fps (env_playing 110) showing_100)))
  = 100
  /\ resulting_sleep info_24fps (env_playing 110) showing_100
     = base_sleep info_24fps (env_playing 110).
Proof.
  apply (no_correction_in_dead_band info_24fps (env_playing 110) showing_100).
  right. vm_compute. split; discriminate.
Defined.

Lemma render_and_adjust_behind info env p :
  both_streams info = true ->
  frame_diff env p < -10 ->
  video_position (fst (fst (render_and_adjust info env p)))
  = skip_ahead (video_position p) (frame_diff env p).
Proof.
  intros Hb Hd. rewrite render_and_adjust_both by assumption. cbv zeta.
  rewrite adjust_drift_cases, Hb, !andb_true_r.
  replace (0 <? frame_diff env p) with false
    by (symmetry; apply Z.ltb_ge; lia).
  replace (frame_diff env p <? -10) with true
    by (symmetry; apply Z.ltb_lt; lia).
  reflexivity.
Qed.

(** The skip ahead halves the deficit and never overtakes the audio:
    with both streams present, the video more than 10 frames behind the
    audio, and positions that are not negative and below [2 ^ 51], the
    new position lies strictly after the old one and at least 6 frames
    before the audio position, the remaining deficit being the old one
    less its half rounded down. *)
Theorem skip_ahead_halves_deficit info env p :
  both_streams info = true ->
  0 <= video_position p ->
  video_position p + 10 < getCurrentFramePosition env < 2 ^ 51 ->
  let p' := fst (fst (render_and_adjust info env p)) in
  let deficit := getCurrentFramePosition env - video_position p in
  audio_position p' = getCurrentFramePosition env
  /\ audio_position p' - video_position p' = deficit - deficit / 2
  /\ video_position p < video_position p'
  /\ video_position p' + 6 <= audio_position p'.
Proof.
  intros Hb Hv Ha p' deficit.
  assert (Hp51 : 2 ^ 51 = 2251799813685248) by reflexivity.
  assert (Hd : frame_diff env p = - deficit).
  { unfold frame_diff, deficit. rewrite sub_small; [lia|].
    unfold Int64.in_range, Int64.min_signed, Int64.max_signed.
    change (2 ^ 63) with 9223372036854775808. lia. }
  assert (Hex : video_position p'
                = video_position p + Z.abs (frame_diff env p) / 2).
  { subst p'. rewrite render_and_adjust_behind by (auto; lia).
    apply skip_ahead_exact; lia. }
  pose proof (render_and_adjust_members info env p) as (_ & _ & _ & _ & M5).
  cbv zeta in M5. rewrite Hb in M5. subst p'.
  rewrite Hex, M5, Hd, Z.abs_opp, Z.abs_eq by (unfold deficit; lia).
  assert (Hhalf : 2 * (deficit / 2) <= deficit)
    by (apply Z.mul_div_le; lia).
  assert (Hpos : 5 <= deficit / 2)
    by (apply Z.div_le_lower_bound; unfold deficit; lia).
  unfold deficit in *. repeat split; lia.
Qed.

Lemma skip_ahead_halves_deficit_witness :
  let p' := fst (fst (render_and_adjust info_24fps (env_playing 131)
                        showing_100)) in
  audio_position p' = 131
  /\ audio_position p' - video_position p' = 31 - 31 / 2
  /\ 100 < video_position p'
  /\ video_position p' + 6 <= audio_position p'.
Proof.
  apply (skip_ahead_halves_deficit info_24fps (env_playing 131) showing_100).
  - reflexivity.
  - simpl. lia.
  - simpl. lia.
Defined.

(** ** The whole run *)

(** A pass makes none of the calls [P] picks out, provided [P] picks
    none of those a pass can make. *)
Lemma pass_events_avoid (P : event -> bool) info env p :
  let pos := video_position (advance info p) in
  P (EvSetCurrentFramePosition pos) = false ->
  P (EvReaderGetFrame pos) = false ->
  P (EvSleepFor (frame_duration info)) = false ->
  (forall f, P (EvRender f) = false) ->
  (both_streams info = true ->
   P (EvAudioSeek pos) = false /\ P EvAudioGetPosition = false) ->
  (forall d v a s rt sl, P (EvDebug d v a s rt sl) = false) ->
  (forall ms, 0 < ms < max_sleep_ms p -> P (EvSleepMs ms) = false) ->
  existsb P (events_of (run_iteration info env p)) = false.
Proof.
  intros pos Hset Hget Hfor Hren Haud Hdbg Hms.
  assert (Hg : existsb P (snd (getFrame info (reader_GetFrame env) p)) = false).
  { destruct (getFrame_events_cases info (reader_GetFrame env) p) as [E|E];
      rewrite E; [reflexivity|]. simpl. fold pos. rewrite Hset, Hget.
    reflexivity. }
  destruct (run_iteration_shape info env p) as [[e H]|[[f [_ H]]|[f [_ H]]]];
    cbv zeta in H; rewrite H; simpl events_of.
  - exact Hg.
  - rewrite existsb_app, Hg. simpl. rewrite Hfor. reflexivity.
  - assert (Hac : existsb P (audio_calls info (set_frame (advance info p) f))
                  = false).
    { unfold audio_calls. destruct (both_streams info); [|reflexivity].
      destruct (Haud eq_refl) as [A1 A2]. simpl. fold pos.
      destruct (_ =? 1); simpl; rewrite ?A1, A2; reflexivity. }
    assert (Hd : P (debug_record info env (set_frame (advance info p) f))
                 = false) by apply Hdbg.
    rewrite existsb_app, Hg. cbn [existsb orb]. rewrite Hren. cbn [orb].
    rewrite !existsb_app, Hac. cbn [existsb orb]. rewrite Hd. cbn [orb].
    unfold final_sleep. rewrite render_and_adjust_max_sleep. simpl max_sleep_ms.
    rewrite advance_max_sleep.
    destruct (0 <? _) eqn:E1; [|reflexivity].
    destruct (_ <? max_sleep_ms p) eqn:E2; [|reflexivity].
    simpl. rewrite Hms; [reflexivity|].
    apply Z.ltb_lt in E1, E2. lia.
Qed.

Lemma pass_max_sleep info env p :
  max_sleep_ms (player_after (run_iteration info env p)) = max_sleep_ms p.
Proof.
  destruct (run_iteration_shape info env p) as [[e H]|[[f [_ H]]|[f [_ H]]]];
    cbv zeta in H; rewrite H; simpl player_after.
  - apply advance_max_sleep.
  - simpl. apply advance_max_sleep.
  - rewrite render_and_adjust_max_sleep. simpl. apply advance_max_sleep.
Qed.

Lemma pass_speed info env p :
  speed (player_after (run_iteration info env p)) = speed p
  \/ speed (player_after (run_iteration info env p)) = 0.
Proof.
  destruct (run_iteration_shape info env p) as [[e H]|[[f [_ H]]|[f [_ H]]]];
    cbv zeta in H; rewrite H; simpl player_after.
  - left. apply advance_speed.
  - right. reflexivity.
  - left.
    pose proof (render_and_adjust_members info env
                  (set_frame (advance info p) f)) as (M1 & _).
    cbv zeta in M1. rewrite M1. simpl. apply advance_speed.
Qed.

(** What every pass keeps, the run keeps; what no pass does, the run does
    not do. *)
Lemma run_loop_invariant info (I : PlayerPrivate -> Prop) (P : event -> bool) :
  (forall env q,
     I q ->
     I (player_after (run_iteration info env q))
     /\ existsb P (events_of (run_iteration info env q)) = false) ->
  forall schedule p,
    I p ->
    I (final_player (fst (run_loop info schedule p)))
    /\ existsb P (snd (run_loop info schedule p)) = false.
Proof.
  intros Hstep schedule.
  induction schedule as [|[should_exit env] rest IH]; intros p Hp.
  - simpl. auto.
  - simpl. destruct should_exit; [simpl; auto|].
    destruct (Hstep env p Hp) as [H1 H2].
    destruct (run_iteration info env p) as [p' evs|e p' evs];
      simpl in H1, H2.
    + destruct (IH p' H1) as [H3 H4].
      destruct (run_loop info rest p') as [r evs']. simpl in *.
      rewrite existsb_app, H2, H4. auto.
    + simpl. auto.
Qed.

Lemma existsb_false_not_in {A} (P : A -> bool) l x :
  existsb P l = false -> In x l -> P x = false.
Proof.
  intros H Hin. destruct (P x) eqn:E; [|reflexivity].
  assert (existsb P l = true) by (apply existsb_exists; eauto). congruence.
Qed.

(** Over a whole run, whatever the schedule and the collaborators,
    [max_sleep_ms] keeps the value the run began with, and every sleep
    at the end of a pass lasts more than 0 and less than [max_sleep_ms]
    milliseconds. *)
Theorem run_sleeps_stay_below_max info schedule p :
  max_sleep_ms (final_player (fst (run_loop info schedule p)))
  = max_sleep_ms p
  /\ forall ms, In (EvSleepMs ms) (snd (run_loop info schedule p)) ->
                0 < ms < max_sleep_ms p.
Proof.
  assert (Hstep : forall env q,
             max_sleep_ms q = max_sleep_ms p ->
             max_sleep_ms (player_after (run_iteration info env q))
             = max_sleep_ms p
             /\ existsb (is_sleep_outside (max_sleep_ms p))
                  (events_of (run_iteration info env q)) = false).
  { intros env q Hq. split; [rewrite pass_max_sleep; assumption|].
    apply pass_events_avoid; try reflexivity; try (intros; reflexivity);
      try (intros; split; reflexivity).
    intros ms Hms. simpl. rewrite Hq in Hms.
    destruct Hms as [M1 M2]. apply Z.ltb_lt in M1, M2. rewrite M1, M2.
    reflexivity. }
  destruct (run_loop_invariant info _ _ Hstep schedule p eq_refl) as [H1 H2].
  split; [assumption|]. intros ms Hin.
  pose proof (existsb_false_not_in _ _ _ H2 Hin) as Hn. simpl in Hn.
  apply negb_false_iff, andb_true_iff in Hn. destruct Hn as [N1 N2].
  apply Z.ltb_lt in N1, N2. lia.
Qed.

(** The loop never resumes playback by itself: the only value it writes
    to [speed] is 0, so [speed] ends as it began or as 0, and a run that
    begins paused ends paused. *)
Theorem run_only_pauses info schedule p :
  speed (final_player (fst (run_loop info schedule p))) = speed p
  \/ speed (final_player (fst (run_loop info schedule p))) = 0.
Proof.
  assert (Hstep : forall env q,
             speed q = speed p \/ speed q = 0 ->
             (speed (player_after (run_iteration info env q)) = speed p
              \/ speed (player_after (run_iteration info env q)) = 0)
             /\ existsb (fun _ => false)
                  (events_of (run_iteration info env q)) = false).
  { intros env q Hq. split.
    - destruct (pass_speed info env q) as [E|E]; rewrite E; auto.
    - apply pass_events_avoid; try reflexivity; intros; try split; reflexivity. }
  apply (run_loop_invariant info _ _ Hstep schedule p). now left.
Qed.

(** A run that begins paused on the position displayed last stays
    there: whatever the schedule and the collaborators, nothing is handed
    to the video thread, the audio thread is not called, no drift is
    corrected, and [video_position], [last_video_position],
    [audio_position] and [speed] end as they began. *)
Theorem paused_run_renders_nothing info schedule p :
  speed p = 0 ->
  video_position p = last_video_position p ->
  Int64.in_range (video_position p) ->
  let r := run_loop info schedule p in
  existsb is_render_or_drift (snd r) = false
  /\ speed (final_player (fst r)) = 0
  /\ video_position (final_player (fst r)) = video_position p
  /\ last_video_position (final_player (fst r)) = last_video_position p
  /\ audio_position (final_player (fst r)) = audio_position p.
Proof.
  intros Hs Hv Hr r. subst r.
  set (I := fun q => speed q = 0
                     /\ video_position q = video_position p
                     /\ last_video_position q = last_video_position p
                     /\ audio_position q = audio_position p).
  assert (Hstep : forall env q,
             I q ->
             I (player_after (run_iteration info env q))
             /\ existsb is_render_or_drift
                  (events_of (run_iteration info env q)) = false).
  { intros env q (Q1 & Q2 & Q3 & Q4).
    pose proof (paused_pass info env q Q1 ltac:(congruence)
                  ltac:(rewrite Q2; assumption))
      as (P1 & P2 & P3 & P4 & P5 & _).
    cbv zeta in *. unfold I. repeat split; congruence. }
  destruct (run_loop_invariant info I _ Hstep schedule p) as [H1 H2].
  { unfold I. auto. }
  unfold I in H1. tauto.
Qed.

Lemma paused_run_renders_nothing_witness :
  let r := run_loop info_24fps
             [(false, env_closed); (false, env_playing 30);
              (false, env_broken); (false, env_playing 9)]
             paused_on_7 in
  existsb is_render_or_drift (snd r) = false
  /\ speed (final_player (fst r)) = 0
  /\ video_position (final_player (fst r)) = 7
  /\ last_video_position (final_player (fst r)) = 7
  /\ audio_position (final_player (fst r)) = 7.
Proof.
  apply (paused_run_renders_nothing info_24fps
           [(false, env_closed); (false, env_playing 30);
            (false, env_broken); (false, env_playing 9)] paused_on_7).
  - reflexivity.
  - reflexivity.
  - unfold Int64.in_range, Int64.min_signed, Int64.max_signed. simpl. lia.
Defined.

Lemma pass_without_skip info env p :
  both_streams info = false ->
  video_position (player_after (run_iteration info env p))
  = video_position (advance info p)
  /\ audio_position (player_after (run_iteration info env p))
     = audio_position p.
Proof.
  intros Hb.
  destruct (run_iteration_shape info env p) as [[e H]|[[f [_ H]]|[f [_ H]]]];
    cbv zeta in H; rewrite H; simpl player_after.
  - split; [reflexivity | apply advance_audio].
  - split; [reflexivity | apply advance_audio].
  - rewrite render_and_adjust_single by assumption. simpl.
    split; [reflexivity | apply advance_audio].
Qed.

(** Playing a stream that lacks audio or video never leaves the
    timeline: from a position within [[1, video_length]], whatever the
    schedule, [speed] and the collaborators, the position ends within
    [[1, video_length]], the reader is never asked for a position outside
    it, the audio thread is never called and [audio_position] is never
    written. *)
Theorem single_stream_run_stays_on_timeline info schedule p :
  both_streams info = false ->
  on_timeline info (video_position p) ->
  let r := run_loop info schedule p in
  on_timeline info (video_position (final_player (fst r)))
  /\ audio_position (final_player (fst r)) = audio_position p
  /\ existsb is_audio_call (snd r) = false
  /\ existsb (is_fetch_off_timeline info) (snd r) = false.
Proof.
  intros Hb Ht r. subst r.
  set (I := fun q => on_timeline info (video_position q)
                     /\ audio_position q = audio_position p).
  set (P := fun ev => is_audio_call ev || is_fetch_off_timeline info ev).
  assert (Hstep : forall env q,
             I q ->
             I (player_after (run_iteration info env q))
             /\ existsb P (events_of (run_iteration info env q)) = false).
  { intros env q [Q1 Q2].
    assert (Ha : on_timeline info (video_position (advance info q))).
    { destruct (advance_on_timeline info q) as [E|E];
        [rewrite E; assumption | assumption]. }
    destruct (pass_without_skip info env q Hb) as [S1 S2].
    split.
    - unfold I. rewrite S1, S2. auto.
    - apply pass_events_avoid; try reflexivity;
        try (intros; reflexivity); try congruence.
      unfold P. simpl. destruct Ha as [A1 A2].
      apply Z.leb_le in A1, A2. rewrite A1, A2. reflexivity. }
  destruct (run_loop_invariant info I P Hstep schedule p) as [[H1 H2] H3].
  { unfold I. auto. }
  split; [assumption|]. split; [assumption|].
  assert (Hsplit : forall l, existsb P l = false ->
                             existsb is_audio_call l = false
                             /\ existsb (is_fetch_off_timeline info) l = false).
  { induction l as [|ev l IH]; simpl; [auto|]. unfold P at 1.
    intros H. apply orb_false_iff in H. destruct H as [H4 H5].
    apply orb_false_iff in H4. destruct H4 as [H6 H7].
    destruct (IH H5) as [H8 H9]. rewrite H6, H7, H8, H9. auto. }
  apply Hsplit. assumption.
Qed.

Lemma single_stream_run_stays_on_timeline_witness :
  let r := run_loop info_video_only
             [(false, env_playing 1); (false, env_bounded 90);
              (false, env_closed)]
             (set_speed at_the_end (-60)) in
  on_timeline info_video_only (video_position (final_player (fst r)))
  /\ audio_position (final_player (fst r)) = 100
  /\ existsb is_audio_call (snd r) = false
  /\ existsb (is_fetch_off_timeline info_video_only) (snd r) = false.
Proof.
  apply (single_stream_run_stays_on_timeline info_video_only
           [(false, env_playing 1); (false, env_bounded 90);
            (false, env_closed)]
           (set_speed at_the_end (-60))).
  - reflexivity.
  - unfold on_timeline. simpl. lia.
Defined.

(** [run] makes its thread calls before the first pass and none after:
    without a reader it returns at once, having called nobody; with one
    it starts the audio thread at priority 8 only if the stream has
    audio, then the cache and the video threads at priorities 2 and 4
    only if it has video, and the loop itself never starts or stops a
    thread. *)
Theorem run_starts_threads_first schedule p :
  run None schedule p = (Exited p, [])
  /\ forall info,
       fst (run (Some info) schedule p) = fst (run_loop info schedule p)
       /\ snd (run (Some info) schedule p)
          = thread_starts info ++ snd (run_loop info schedule p)
       /\ existsb is_thread_call (snd (run_loop info schedule p)) = false.
Proof.
  split; [reflexivity|]. intros info.
  assert (Hstep : forall env q,
             True ->
             True /\ existsb is_thread_call
                       (events_of (run_iteration info env q)) = false).
  { intros env q _. split; [exact I|].
    apply pass_events_avoid; try reflexivity; intros; try split; reflexivity. }
  destruct (run_loop_invariant info (fun _ => True) _ Hstep schedule p I)
    as [_ H].
  unfold run, thread_starts.
  destruct (run_loop info schedule p) as [r evs]. simpl in *.
  rewrite app_assoc. auto.
Qed.

(** ** Stopping and restarting *)

(** [stopPlayback] stops only threads that are running, each with the
    timeout [max_sleep_ms]: with nothing running it calls nobody; the
    loop thread is stopped exactly when it is running, whatever the
    stream; the audio thread of a stream without audio is left alone even
    when it is running. *)
Theorem stopPlayback_stops_running_threads info t p :
  (forall ev, In ev (stopPlayback info t p) ->
     exists th, ev = EvStopThread th (max_sleep_ms p)
                /\ is_running t th = true)
  /\ ((forall th, is_running t th = false) -> stopPlayback info t p = [])
  /\ (In (EvStopThread Player (max_sleep_ms p)) (stopPlayback info t p)
      <-> player_running t = true)
  /\ (has_audio info = false ->
      forall ms, ~ In (EvStopThread AudioPlayback ms) (stopPlayback info t p)).
Proof.
  unfold stopPlayback. split; [|split; [|split]].
  - intros ev Hin.
    destruct (audio_running t) eqn:A, (cache_running t) eqn:C,
      (video_running t) eqn:V, (player_running t) eqn:R,
      (has_audio info), (has_video info);
      simpl in Hin; split_in Hin; subst ev;
      (exists AudioPlayback; split; [reflexivity | assumption])
      || (exists VideoCache; split; [reflexivity | assumption])
      || (exists VideoPlayback; split; [reflexivity | assumption])
      || (exists Player; split; [reflexivity | assumption]).
  - intros Hidle.
    rewrite (Hidle AudioPlayback : audio_running t = false),
      (Hidle VideoCache : cache_running t = false),
      (Hidle VideoPlayback : video_running t = false),
      (Hidle Player : player_running t = false).
    reflexivity.
  - destruct (audio_running t), (cache_running t), (video_running t),
      (player_running t), (has_audio info), (has_video info); simpl;
      split; intros H; try reflexivity; try discriminate; auto 10;
      split_in H; discriminate.
  - intros Ha ms Hin. rewrite Ha, andb_false_r in Hin.
    destruct (cache_running t && has_video info),
      (video_running t && has_video info), (player_running t);
      simpl in Hin; split_in Hin; discriminate.
Qed.

Lemma stopPlayback_stops_running_threads_witness :
  stopPlayback info_video_only
    {| audio_running := false; cache_running := false;
       video_running := false; player_running := false |} initial = []
  /\ ~ In (EvStopThread AudioPlayback 3000)
         (stopPlayback info_video_only all_running initial).
Proof.
  pose proof (stopPlayback_stops_running_threads info_video_only
                {| audio_running := false; cache_running := false;
                   video_running := false; player_running := false |}
                initial) as (_ & H2 & _).
  pose proof (stopPlayback_stops_running_threads info_video_only all_running
                initial) as (_ & _ & _ & H4).
  split.
  - apply H2. intros []; reflexivity.
  - apply H4. reflexivity.
Defined.

(** [startPlayback] restarts the loop thread: for a position that is not
    negative, a loop thread that is running is stopped with the timeout
    [max_sleep_ms] immediately before the loop thread is started at
    priority 1, that start being the last call; and with no thread
    running the start is the only call. *)
Theorem startPlayback_restarts_loop_thread info t p :
  0 <= video_position p ->
  (player_running t = true ->
   exists evs,
     snd (startPlayback info t p)
     = evs ++ [EvStopThread Player (max_sleep_ms p); EvStartThread Player 1])
  /\ ((forall th, is_running t th = false) ->
      startPlayback info t p = (true, [EvStartThread Player 1])).
Proof.
  intros Hv. unfold startPlayback.
  replace (video_position p <? 0) with false
    by (symmetry; apply Z.ltb_ge; assumption).
  split.
  - intros Hr. unfold stopPlayback. rewrite Hr. simpl snd.
    match goal with
    | |- exists evs, (?a ++ ?b ++ ?c ++ ?d) ++ ?e = _ =>
        exists (a ++ b ++ c)
    end.
    rewrite <- !app_assoc. reflexivity.
  - intros Hidle. unfold stopPlayback.
    rewrite (Hidle AudioPlayback : audio_running t = false),
      (Hidle VideoCache : cache_running t = false),
      (Hidle VideoPlayback : video_running t = false),
      (Hidle Player : player_running t = false).
    reflexivity.
Qed.

Lemma startPlayback_restarts_loop_thread_witness :
  exists evs,
    snd (startPlayback info_24fps only_player_running initial)
    = evs ++ [EvStopThread Player 3000; EvStartThread Player 1].
Proof.
  apply (startPlayback_restarts_loop_thread info_24fps only_player_running
           initial).
  - simpl. lia.
  - reflexivity.
Defined.

Lemma run_sleeps_stay_below_max_witness : 0 < 41 < max_sleep_ms playing_at_5.
Proof.
  apply (proj2 (run_sleeps_stay_below_max info_24fps
                  [(false, env_playing 6); (false, env_playing 7);
                   (true, env_closed)] playing_at_5) 41).
  vm_compute. auto 10.
Defined.

(** ** Repeated calls and the drift delay *)

(** Calls of [getFrame] add up: as long as the position stays within
    [[1, video_length]], [n] calls move it by [n * speed], forward or
    backward, whatever the reader answers. *)
Theorem getFrame_repeat_advances info readers p :
  Int64.in_range (video_length info) ->
  on_timeline info (video_position p) ->
  on_timeline info
    (video_position p + Z.of_nat (length readers) * speed p) ->
  video_position (snd (fst (getFrame_repeat info readers p)))
  = video_position p + Z.of_nat (length readers) * speed p.
Proof.
  intros Hl. revert p. unfold on_timeline.
  induction readers as [|GetFrame rest IH]; intros p Hp Hn.
  - simpl. lia.
  - cbn [getFrame_repeat].
    pose proof (getFrame_player info GetFrame p) as Hg.
    destruct (getFrame info GetFrame p) as [[r p1] evs]. simpl in Hg.
    subst p1.
    cbn [length] in Hn |- *. rewrite Nat2Z.inj_succ in Hn |- *.
    assert (Hstep : 1 <= video_position p + speed p <= video_length info)
      by nia.
    pose proof (advance_in_bounds info p Hstep Hl) as Ha.
    specialize (IH (advance info p)). rewrite Ha in IH |- *.
    simpl video_position in IH. simpl speed in IH.
    destruct (getFrame_repeat info rest _) as [[rs p2] evs'].
    simpl in IH |- *. rewrite IH; lia.
Qed.

Lemma getFrame_repeat_advances_witness :
  video_position
    (snd (fst (getFrame_repeat info_24fps
                 [closed_reader; frames_by_number; bounded_reader 3]
                 (set_speed at_the_end (-30)))))
  = 100 + 3 * -30.
Proof.
  apply (getFrame_repeat_advances info_24fps
           [closed_reader; frames_by_number; bounded_reader 3]
           (set_speed at_the_end (-30)));
    unfold Int64.in_range, Int64.min_signed, Int64.max_signed, on_timeline;
    simpl; lia.
Defined.

Lemma trunc_nonneg x : (0 <= value x)%Q -> 0 <= trunc x.
Proof.
  intros H. destruct (trunc_spec x) as [Hpos _].
  destruct (Hpos H) as [_ H2].
  pose proof (Qle_lt_trans _ _ _ H H2) as H3.
  change 0%Q with (inject_Z 0) in H3. rewrite <- Zlt_Qlt in H3. lia.
Qed.

(** Holding the frame for the audio never shortens the sleep: on a
    stream with a positive frame rate, with both streams present and the
    video ahead, the adjusted [sleep_time] is at least the unadjusted
    one (the product being finite and, like the sum, within
    [int64_t]). *)
Theorem drift_delay_never_shortens info env p :
  both_streams info = true ->
  0 < num (fps info) -> 0 < den (fps info) ->
  0 < frame_diff env p ->
  let extra := Double.mul (of_Z (frame_diff env p)) (frame_duration info) in
  is_finite extra = true ->
  trunc extra <= Int64.max_signed ->
  base_sleep info env + trunc extra <= Int64.max_signed ->
  base_sleep info env <= resulting_sleep info env p.
Proof.
  intros Hb Hn Hd Hdiff extra Hf Hmax Hsum.
  assert (Hpos : 0 <= trunc extra).
  { apply trunc_nonneg, value_nonneg, mul_nonneg.
    - apply of_Z_nonneg. lia.
    - apply frame_duration_nonneg; assumption. }
  assert (Hbase : Int64.in_range (base_sleep info env))
    by apply to_int64_in_range.
  rewrite resulting_sleep_ahead by assumption.
  unfold drift_delay. fold extra.
  unfold Int64.in_range, Int64.min_signed, Int64.max_signed in *.
  rewrite to_int64_trunc
    by (auto; unfold Int64.in_range, Int64.min_signed, Int64.max_signed; lia).
  rewrite add_small
    by (unfold Int64.in_range, Int64.min_signed, Int64.max_signed; lia).
  lia.
Qed.

Lemma drift_delay_never_shortens_witness :
  base_sleep info_2000fps env_audio_at_7
  <= resulting_sleep info_2000fps env_audio_at_7 showing_8.
Proof.
  apply (drift_delay_never_shortens info_2000fps env_audio_at_7 showing_8
           eq_refl).
  - simpl. lia.
  - simpl. lia.
  - vm_compute. reflexivity.
  - vm_compute. reflexivity.
  - vm_compute. discriminate.
  - vm_compute. discriminate.
Defined.
